(** * Keyword search over a directory tree: partitioning, scanning, merging

    A shallow embedding of [search_multiprocessing.py] and
    [search_threading.py].  Both programs enumerate the files of a directory,
    cut the sorted file list into chunks ([chunked]), scan every chunk for the
    requested keywords ([scan_files]) in a worker of its own and merge the
    per-chunk dictionaries into one result ([merge] in the process variant,
    [merge_into] under a lock in the thread variant).

    Modelling choices:
    - a [Path] is the string [str(p)] of the Python path object;
    - a Python [dict] from keyword to list of paths is a [gmap string (list
      Path)]; the insertion order of the keys (which only decides the order of
      the keys in the printed document) is not modelled, the order inside each
      list of paths is;
    - Python integers are [Z], list lengths and indices are converted through
      [Z.of_nat] and [Z.to_nat];
    - exceptions are values of [exn]; a computation that may raise returns a
      [result];
    - the file system and the library functions [str.lower], [Path.glob],
      [Path.is_dir] and [cpu_count] are parameters of the development;
    - the workers run concurrently but every merge is atomic (the main process
      merges one received dictionary at a time, the threads merge under the
      lock), so a run is determined by the order in which the chunks are
      merged: any permutation of the list of chunks;
    - elapsed time is not modelled.

    [chunked] and [scan_files] are the same in both files and are embedded
    once.  Where the two files use one name for different functions, the
    prefix tells them apart: [mp_worker], [mp_main] are [worker] and [main]
    of [search_multiprocessing.py], [th_worker], [th_main] those of
    [search_threading.py]. *)

From Stdlib Require Import ZArith Lia Ascii String.
From Stdlib Require DecimalString DecimalNat.
From stdpp Require Import base list gmap strings sorting fin_maps.

Open Scope Z_scope.

(** ** Exceptions and results *)

Inductive exn : Type :=
  | KeyError (k : string)
  | FileNotFoundError
  | PermissionError
  | IsADirectoryError
  | OSError
  | ValueError
  | NotImplementedError.

Inductive result (A : Type) : Type :=
  | Ok (a : A)
  | Raise (e : exn).
Arguments Ok {A} a.
Arguments Raise {A} e.

Definition rbind {A B} (m : result A) (f : A → result B) : result B :=
  match m with
  | Ok a => f a
  | Raise e => Raise e
  end.

Notation "x ←r m ; k" := (rbind m (λ x, k))
  (at level 20, m at level 100, k at level 200, only parsing).

(** A Python [for x in xs: body] whose body may raise: the loop state is
    threaded through, the first exception leaves the loop. *)
Fixpoint for_each {A S} (xs : list A) (body : S → A → result S) (s : S)
  : result S :=
  match xs with
  | [] => Ok s
  | x :: xs' => s' ←r body s x; for_each xs' body s'
  end.

(** ** Data model *)

Definition Path : Type := string.

Abbreviation Dict := (gmap string (list Path)).

(** [{kw: [] for kw in keywords}] *)
Definition empty_result (keywords : list string) : Dict :=
  foldl (λ d kw, <[kw := []]> d) ∅ keywords.

(** [out[kw].append(p)]: indexing a missing key raises [KeyError]. *)
Definition append_at (out : Dict) (kw : string) (p : Path) : result Dict :=
  match out !! kw with
  | Some l => Ok (<[kw := l ++ [p]]> out)
  | None => Raise (KeyError kw)
  end.

(** [needle in hay] on Python strings: substring test. *)
Fixpoint contains (needle hay : string) : bool :=
  String.prefix needle hay ||
  match hay with
  | EmptyString => false
  | String _ hay' => contains needle hay'
  end.

(** ** The partitioner: [chunked] *)

(** [range(start, stop, step)] for a positive step, as the loop
    [i = start; while i < stop: yield i; i += step]. *)
Fixpoint range_from (fuel : nat) (i stop step : Z) : list Z :=
  match fuel with
  | O => []
  | S fuel' =>
      if decide (i < stop) then i :: range_from fuel' (i + step) stop step
      else []
  end.

Definition range (start stop step : Z) : list Z :=
  range_from (Z.to_nat (stop - start)) start stop step.

(** [seq[i:j]] for [0 <= i <= j]: out-of-range bounds are clamped. *)
Definition slice {A} (seq : list A) (i j : Z) : list A :=
  take (Z.to_nat (j - i)) (drop (Z.to_nat i) seq).

Definition chunk_size (len n : Z) : Z :=
  let n := if decide (n ≤ 0) then 1 else n in
  Z.max 1 (len `div` n + (if decide (len `mod` n ≠ 0) then 1 else 0)).

Definition chunked {A} (seq : list A) (n : Z) : list (list A) :=
  let len := Z.of_nat (length seq) in
  let k := chunk_size len n in
  (λ i, slice seq i (i + k)) <$> range 0 len k.

(** ** The environment of a run *)

(** What the programs take from the Python library and from the machine:
    - [lower] is [str.lower];
    - [path_leb] is the order of [Path] objects used by [sorted];
    - [cpu_count] is [multiprocessing.cpu_count()];
    - [is_dir p] is [p.is_dir()]: whether [p] is an existing directory, or
      the [OSError] that the test re-raises (a missing path is not an error,
      it gives [False]);
    - [pattern_error pat] is the exception, if any, with which [glob]
      rejects a non-empty relative pattern before it looks at the file
      system (a [**] inside a path component, say);
    - [glob_under root pat] is what [root.glob(pat)] yields for an existing
      directory [root] and an accepted pattern;
    - [read_text p] is [p.read_text(encoding="utf-8", errors="ignore")]:
      the decoded content, or the exception raised by the read. *)
Record Env : Type := {
  lower : string → string;
  path_leb : Path → Path → bool;
  cpu_count : Z;
  is_dir : Path → result bool;
  pattern_error : string → option exn;
  glob_under : Path → string → result (list Path);
  read_text : Path → result string;
}.

(** Parsed command line: [--path], [--keywords], [--procs] or [--threads],
    [--glob]. *)
Record Args : Type := {
  arg_path : Path;
  arg_keywords : list string;
  arg_workers : Z;
  arg_glob : string;
}.

(** How a run of [main] ends. *)
Inductive outcome : Type :=
  | Printed (results : Dict)   (* the document is printed, exit status 0 *)
  | Uncaught (e : exn)         (* traceback on stderr, exit status 1 *)
  | Blocked.                   (* the main process waits on [q.get()] forever *)

Definition exit_status (o : outcome) : option Z :=
  match o with
  | Printed _ => Some 0
  | Uncaught _ => Some 1
  | Blocked => None
  end.

Section Programs.
Variable E : Env.

(** *** File enumerator *)

(** The checks that [glob] makes on its pattern before it looks at the
    root: an empty pattern raises [ValueError], a pattern with a root (an
    absolute one) raises [NotImplementedError], and the selector built from
    the pattern may reject it. *)
Definition pattern_check (pat : string) : option exn :=
  if decide (pat = "") then Some ValueError
  else if String.prefix "/" pat then Some NotImplementedError
  else pattern_error E pat.

(** [root.glob(pat)], consumed by [sorted]: the pattern is checked first;
    then pathlib walks [root] only when [is_dir] says it is an existing
    directory, and otherwise yields nothing and raises nothing. *)
Definition Path_glob (root : Path) (pat : string) : result (list Path) :=
  match pattern_check pat with
  | Some e => Raise e
  | None =>
      isd ←r is_dir E root;
      if isd : bool then glob_under E root pat else Ok []
  end.

Definition path_le (a b : Path) : Prop := path_leb E a b = true.

#[local] Instance path_le_dec a b : Decision (path_le a b).
Proof. unfold path_le. apply _. Defined.

Definition sorted (ps : list Path) : list Path := merge_sort path_le ps.

(** [files = sorted(root.glob(args.glob))] *)
Definition enumerate (root : Path) (pat : string) : result (list Path) :=
  found ←r Path_glob root pat; Ok (sorted found).

(** *** Scanner *)

(** The body of the inner loop of [scan_files]:
    [if lkw in text: out[kw].append(str(p))]. *)
Definition record_match (text : string) (p : Path)
    (out : Dict) (kwl : string * string) : result Dict :=
  let '(kw, lkw) := kwl in
  if contains lkw text then append_at out kw p else Ok out.

(** The body of the loop over the files: a read that raises is skipped
    ([except Exception: continue]). *)
Definition scan_file (keywords lower_keywords : list string)
    (out : Dict) (p : Path) : result Dict :=
  match read_text E p with
  | Raise _ => Ok out
  | Ok content =>
      let text := lower E content in
      for_each (zip keywords lower_keywords) (record_match text p) out
  end.

Definition scan_files (files : list Path) (keywords : list string)
  : result Dict :=
  let out := empty_result keywords in
  let lower_keywords := lower E <$> keywords in
  for_each files (scan_file keywords lower_keywords) out.

(** *** Aggregator, process variant *)

(** [a.setdefault(k, []).extend(v)] for every item of [b]. *)
Definition merge (a b : Dict) : Dict :=
  foldl (λ a kv, <[kv.1 := default [] (a !! kv.1) ++ kv.2]> a)
        a (map_to_list b).

(** [worker] of the process variant, [q.put(scan_files(files, keywords))]:
    what the worker puts on the queue; a worker whose scan raised dies
    without putting anything. *)
Definition mp_worker (files : list Path) (keywords : list string)
  : option Dict :=
  match scan_files files keywords with
  | Ok part => Some part
  | Raise _ => None
  end.

(** The queue holds what the workers put, in the order of arrival.  The
    main process receives once per started worker and merges what it
    receives; with fewer items than workers it never leaves the receive
    loop. *)
Definition mp_queue (order : list (list Path)) (keywords : list string)
  : list Dict :=
  omap (λ chunk, mp_worker chunk keywords) order.

Definition mp_run (order : list (list Path)) (keywords : list string)
  : outcome :=
  let received := mp_queue order keywords in
  if decide (length received = length order)
  then Printed (foldl merge (empty_result keywords) received)
  else Blocked.

(** *** Aggregator, thread variant *)

(** [dst[k].extend(v)]: indexing a missing key raises [KeyError]. *)
Definition extend_at (dst : Dict) (k : string) (v : list Path)
  : result Dict :=
  match dst !! k with
  | Some l => Ok (<[k := l ++ v]> dst)
  | None => Raise (KeyError k)
  end.

(** [merge_into] mutates the shared dictionary: the second component is the
    dictionary after the call, also when the call raised half-way. *)
Fixpoint merge_items (items : list (string * list Path)) (dst : Dict)
  : result unit * Dict :=
  match items with
  | [] => (Ok (), dst)
  | (k, v) :: rest =>
      match extend_at dst k v with
      | Ok dst' => merge_items rest dst'
      | Raise e => (Raise e, dst)
      end
  end.

Definition merge_into (dst src : Dict) : result unit * Dict :=
  merge_items (map_to_list src) dst.

(** [worker] of the thread variant: scan, then merge under the lock. *)
Definition th_worker (files : list Path) (keywords : list string)
    (shared : Dict) : result unit * Dict :=
  match scan_files files keywords with
  | Ok part => merge_into shared part
  | Raise e => (Raise e, shared)
  end.

(** The threads in the order in which they take the lock.  An exception in
    a thread ends that thread only; the list records how each one ended. *)
Fixpoint run_threads (order : list (list Path)) (keywords : list string)
    (shared : Dict) : list (result unit) * Dict :=
  match order with
  | [] => ([], shared)
  | chunk :: rest =>
      let '(st, shared') := th_worker chunk keywords shared in
      let '(sts, final) := run_threads rest keywords shared' in
      (st :: sts, final)
  end.

Definition th_run (order : list (list Path)) (keywords : list string)
  : outcome :=
  Printed (run_threads order keywords (empty_result keywords)).2.

(** *** The two drivers *)

(** [n_proc = args.procs or cpu_count()] *)
Definition mp_workers (a : Args) : Z :=
  if decide (arg_workers a = 0) then cpu_count E else arg_workers a.

Inductive mp_main (a : Args) : outcome → Prop :=
  | mp_main_uncaught e :
      enumerate (arg_path a) (arg_glob a) = Raise e →
      mp_main a (Uncaught e)
  | mp_main_scan files order :
      enumerate (arg_path a) (arg_glob a) = Ok files →
      order ≡ₚ chunked files (mp_workers a) →
      mp_main a (mp_run order (arg_keywords a)).

Inductive th_main (a : Args) : outcome → Prop :=
  | th_main_uncaught e :
      enumerate (arg_path a) (arg_glob a) = Raise e →
      th_main a (Uncaught e)
  | th_main_scan files order :
      enumerate (arg_path a) (arg_glob a) = Ok files →
      order ≡ₚ chunked files (arg_workers a) →
      th_main a (th_run order (arg_keywords a)).

End Programs.

(** ** Notions used in the statements *)

(** [s] occurs in [t] as a substring. *)
Definition is_substring (s t : string) : Prop :=
  ∃ pre post, t = pre +:+ s +:+ post.

(** The file [p] can be read and its lower-cased content contains the
    lower-cased keyword. *)
Definition readable_match (E : Env) (kw : string) (p : Path) : Prop :=
  ∃ content, read_text E p = Ok content
             ∧ is_substring (lower E kw) (lower E content).

Definition matches (E : Env) (kw : string) (p : Path) : bool :=
  match read_text E p with
  | Ok content => contains (lower E kw) (lower E content)
  | Raise _ => false
  end.

(** Number of occurrences of a keyword in the keyword list. *)
Definition count_kw (kw : string) (keywords : list string) : nat :=
  length (filter (λ kw', kw' = kw) keywords).

(** The paths recorded for [kw] while scanning [files]: every matching file,
    in the order of [files], once per occurrence of [kw] in [keywords]. *)
Definition hits (E : Env) (kw : string) (keywords : list string)
    (files : list Path) : list Path :=
  files ≫= λ p, if matches E kw p then replicate (count_kw kw keywords) p
                else [].

(** Two results hold, under every key, the same paths up to order. *)
Definition same_paths (d1 d2 : Dict) : Prop :=
  ∀ k, option_Forall2 (≡ₚ) (d1 !! k) (d2 !! k).

(** The path [f] appears in the list that [d] holds under the key [k]. *)
Definition listed (d : Dict) (k : string) (f : Path) : Prop :=
  ∃ l, d !! k = Some l ∧ f ∈ l.

(** "A root path that is not an existing directory ends the run with an
    uncaught exception", said of a driver [main]. *)
Definition bad_root_is_fatal (main : Env → Args → outcome → Prop) : Prop :=
  ∀ E a o,
    is_dir E (arg_path a) = Ok false → main E a o → ∃ e, o = Uncaught e.

(** The dictionary [d] has exactly the keys [keywords], and under each key
    [k] the list [paths k]. *)
Definition records (d : Dict) (keywords : list string)
    (paths : string → list Path) : Prop :=
  ∀ k, d !! k = if decide (k ∈ keywords) then Some (paths k) else None.

(** The list that a scan of [chunk] alone holds under the key [k]. *)
Definition scan_list (E : Env) (chunk : list Path) (keywords : list string)
    (k : string) : list Path :=
  match scan_files E chunk keywords with
  | Ok part => default [] (part !! k)
  | Raise _ => []
  end.

(** ** A concrete environment *)

Definition lower_ascii (c : ascii) : ascii :=
  let n := nat_of_ascii c in
  if ((65 <=? n)%nat && (n <=? 90)%nat)%bool then ascii_of_nat (n + 32) else c.

Fixpoint lower_string (s : string) : string :=
  match s with
  | EmptyString => EmptyString
  | String c s' => String (lower_ascii c) (lower_string s')
  end.

(** A directory [docs] with three text files and one file that cannot be
    read, and an empty directory [empty]; nothing else exists. *)
Definition demo_read (p : Path) : result string :=
  if decide (p = "docs/a.txt") then Ok "hello Rose garden"
  else if decide (p = "docs/b.txt") then Ok "no match here"
  else if decide (p = "docs/c.txt") then Ok "ROSE is a flower"
  else if decide (p = "docs/locked.txt") then Raise PermissionError
  else Raise FileNotFoundError.

Definition demo_files : list Path :=
  ["docs/a.txt"; "docs/b.txt"; "docs/c.txt"; "docs/locked.txt"].

Definition demo_env : Env := {|
  lower := lower_string;
  path_leb := String.leb;
  cpu_count := 2;
  is_dir := λ p, Ok (bool_decide (p = "docs") || bool_decide (p = "empty"));
  pattern_error := λ _, None;
  glob_under := λ root pat,
    if decide (root = "docs" ∧ pat = "**/*.txt")
    then Ok (reverse demo_files) else Ok [];
  read_text := demo_read;
|}.

Definition demo_args (root : Path) (keywords : list string) (n : Z) : Args :=
  {| arg_path := root; arg_keywords := keywords; arg_workers := n;
     arg_glob := "**/*.txt" |}.

(** ** The generator of test files, [generate_test_data.py] *)

Module Generator.

(** Exceptions that can leave the functions of the generator: those of
    [random.choice] and [random.randint], of list indexing, and those raised
    by the file system. *)
Inductive error : Type :=
  | IndexError
  | ValueError
  | ZeroDivisionError
  | FsError (e : exn).

Inductive attempt (A : Type) : Type :=
  | Done (a : A)
  | Fail (e : error).
Arguments Done {A} a.
Arguments Fail {A} e.

Definition abind {A B} (m : attempt A) (f : A → attempt B) : attempt B :=
  match m with
  | Done a => f a
  | Fail e => Fail e
  end.

Notation "x ←a m ; k" := (abind m (λ x, k))
  (at level 20, m at level 100, k at level 200, only parsing).

(** What the generator takes from the Python library.  Floats are kept
    abstract: [flt] and [fle] are [<] and [<=] on them, [f0], [f0_7], ... are
    the values of the literals [0], [0.7], ...  The state of the module
    [random] is a value of [rng]: [random] is [random.random()], [uniform] is
    [random.uniform], [randbelow n] draws the index used by [random.choice]
    on a sequence of length [n > 0], [randrange a b] is [random.randint(a, b)]
    for [a <= b], and [seed_rng s] is the state after [random.seed(s)].
    [str_lower], [str_upper], [str_title] are the methods of [str];
    [mkpath s] is [Path(s)] and [joinpath p name] is [p / name]. *)
Record PyLib : Type := {
  float : Type;
  flt : float → float → bool;
  fle : float → float → bool;
  f0 : float;
  f0_7 : float;
  f0_85 : float;
  f0_2 : float;
  f0_75 : float;
  f0_01 : float;
  f0_05 : float;
  rng : Type;
  seed_rng : Z → rng;
  random : rng → float * rng;
  uniform : float → float → rng → float * rng;
  randbelow : nat → rng → nat * rng;
  randrange : Z → Z → rng → Z * rng;
  randbelow_lt : ∀ n g, (0 < n)%nat → ((randbelow n g).1 < n)%nat;
  randrange_bounds : ∀ a b g, a ≤ b → a ≤ (randrange a b g).1 ≤ b;
  str_lower : string → string;
  str_upper : string → string;
  str_title : string → string;
  mkpath : string → Path;
  joinpath : Path → string → Path;
}.

(** The file system: [mkdir p] is [p.mkdir(parents=True, exist_ok=True)],
    [write_text p text] is [p.write_text(text, encoding="utf-8")]; a write
    that raises may still have changed the file system. *)
Record Files : Type := {
  fs : Type;
  mkdir : Path → fs → result fs;
  write_text : Path → string → fs → option exn * fs;
}.

(** What the generator prints: a warning for a file that could not be
    written, and the final report of [main]. *)
Inductive event : Type :=
  | Warn (p : Path) (e : exn)
  | Report (files : Z) (out : string) (subdirs : Z).

(** Parsed command line of the generator. *)
Record GenArgs : Type := {
  a_out : string;
  a_files : Z;
  a_subdirs : Z;
  a_min_words : Z;
  a_max_words : Z;
  a_keywords : list string;
  a_seed : Z;
}.

Definition BASIC_VOCAB : list string :=
  ["сад"; "місто"; "небо"; "ріка"; "сонце"
  ; "вітер"; "ліс"; "камінь"; "вода"; "день"
  ; "ніч"; "час"; "людина"; "книга"; "музика"
  ; "code"; "data"; "system"; "thread"; "process"; "memory"; "network"
  ; "service"; "python"; "java"; "csharp"; "golang"; "rust"; "flower"
  ; "love"; "rose"; "tulip"; "lily"; "garden"; "spring"; "summer"
  ; "autumn"; "winter"; "happy"; "joy"; "bright"; "light"].

(** Decimal digits of a natural number, and [f"{n:0wd}"]: the digits padded
    with zeros on the left to the width [w]. *)
Definition decimal (n : nat) : string :=
  DecimalString.NilEmpty.string_of_uint (Nat.to_uint n).

Fixpoint zeros (n : nat) : string :=
  match n with
  | O => ""
  | S n' => String "0" (zeros n')
  end.

Definition format_d (width n : nat) : string :=
  zeros (width - String.length (decimal n)) +:+ decimal n.

(** [f"shard_{i:02d}"] and [f"doc_{idx:05d}.txt"] *)
Definition shard_name (i : nat) : string := "shard_" +:+ format_d 2 i.

Definition doc_name (idx : nat) : string :=
  "doc_" +:+ format_d 5 idx +:+ ".txt".

(** [" ".join(words)] *)
Definition join_words (words : list string) : string :=
  String.concat " " words.

Section Generate.
Variable L : PyLib.
Variable F : Files.

(** [random.choice(seq)] *)
Definition choice {A} (seq : list A) (g : rng L) : attempt (A * rng L) :=
  match seq with
  | [] => Fail IndexError
  | _ =>
      let '(i, g') := randbelow L (length seq) g in
      match seq !! i with
      | Some x => Done (x, g')
      | None => Fail IndexError
      end
  end.

(** [random.randint(a, b)] *)
Definition randint (a b : Z) (g : rng L) : attempt (Z * rng L) :=
  if decide (a ≤ b) then Done (randrange L a b g) else Fail ValueError.

(** [[random.choice(vocab) for _ in range(count)]] *)
Fixpoint random_words (count : nat) (vocab : list string) (g : rng L)
  : attempt (list string * rng L) :=
  match count with
  | O => Done ([], g)
  | S count' =>
      wg ←a choice vocab g;
      rest ←a random_words count' vocab wg.2;
      Done (wg.1 :: rest.1, rest.2)
  end.

Definition random_text (num_words : Z) (vocab : list string) (g : rng L)
  : attempt (list string * rng L) :=
  random_words (Z.to_nat num_words) vocab g.

Definition mutate_case (w : string) (g : rng L) : string * rng L :=
  let '(r, g') := random L g in
  if flt L r (f0_7 L) then (str_lower L w, g')
  else if flt L r (f0_85 L) then (str_upper L w, g')
  else (str_title L w, g').

(** The [while] loop of [sprinkle_keywords] over the words that are left,
    [out] being the list built so far. *)
Fixpoint sprinkle_loop (words keywords : list string) (density : float L)
    (out : list string) (g : rng L) : attempt (list string * rng L) :=
  match words with
  | [] => Done (out, g)
  | w :: rest =>
      let out := out ++ [w] in
      let '(r, g) := random L g in
      if flt L r density then
        cg ←a choice keywords g;
        let '(kw, g) := mutate_case cg.1 cg.2 in
        let out := out ++ [kw] in
        let '(r2, g) := random L g in
        if flt L r2 (f0_2 L) then
          cg2 ←a choice keywords g;
          let '(kw2, g) := mutate_case cg2.1 cg2.2 in
          sprinkle_loop rest keywords density (out ++ [kw2]) g
        else sprinkle_loop rest keywords density out g
      else sprinkle_loop rest keywords density out g
  end.

Definition sprinkle_keywords (words keywords : list string)
    (density : float L) (g : rng L) : attempt (list string * rng L) :=
  if bool_decide (keywords = []) || fle L density (f0 L)
  then Done (words, g)
  else sprinkle_loop words keywords density [] g.

(** [[out_dir / f"shard_{i:02d}" for i in range(max(1, subdirs))]] *)
Definition shard_paths (out_dir : Path) (subdirs : Z) : list Path :=
  (λ i, joinpath L out_dir (shard_name i))
    <$> seq 0 (Z.to_nat (Z.max 1 subdirs)).

(** [shard_paths[idx % len(shard_paths)] / f"doc_{idx:05d}.txt"] *)
Definition doc_path (shards : list Path) (idx : nat) : attempt Path :=
  if decide (length shards = 0%nat) then Fail ZeroDivisionError
  else match shards !! (idx mod length shards)%nat with
       | Some shard => Done (joinpath L shard (doc_name idx))
       | None => Fail IndexError
       end.

(** The words of one file: their number is drawn first, then the words, and
    with probability [0.75] keywords are sprinkled in. *)
Definition file_words (min_words max_words : Z) (keywords : list string)
    (g : rng L) : attempt (list string * rng L) :=
  ng ←a randint (Z.max 5 min_words) (Z.max min_words max_words) g;
  wg ←a random_text ng.1 BASIC_VOCAB ng.2;
  let '(r, g) := random L wg.2 in
  if flt L r (f0_75 L) then
    let '(density, g) := uniform L (f0_01 L) (f0_05 L) g in
    sprinkle_keywords wg.1 keywords density g
  else Done (wg.1, g).

(** The state threaded through [make_files]: the generator of random
    numbers, the file system, and what was printed. *)
Definition gen_state : Type := rng L * fs F * list event.

(** The [try] around [write_text]: an exception becomes a warning. *)
Definition write_doc (path : Path) (text : string) (disk : fs F)
    (log : list event) : fs F * list event :=
  match write_text F path text disk with
  | (None, disk') => (disk', log)
  | (Some e, disk') => (disk', log ++ [Warn path e])
  end.

(** The loop [for idx in range(total_files)] over the indices left. *)
Fixpoint make_docs (idxs : list nat) (shards : list Path)
    (min_words max_words : Z) (keywords : list string) (st : gen_state)
  : attempt gen_state :=
  match idxs with
  | [] => Done st
  | idx :: rest =>
      let '(g, disk, log) := st in
      path ←a doc_path shards idx;
      wg ←a file_words min_words max_words keywords g;
      let '(disk, log) := write_doc path (join_words wg.1) disk log in
      make_docs rest shards min_words max_words keywords (wg.2, disk, log)
  end.

(** The loop [for sp in shard_paths: sp.mkdir(...)]. *)
Fixpoint make_dirs (dirs : list Path) (disk : fs F) : attempt (fs F) :=
  match dirs with
  | [] => Done disk
  | d :: rest =>
      match mkdir F d disk with
      | Ok disk' => make_dirs rest disk'
      | Raise e => Fail (FsError e)
      end
  end.

Definition make_files (out_dir : Path)
    (total_files subdirs min_words max_words : Z) (keywords : list string)
    (seed : option Z) (st : gen_state) : attempt gen_state :=
  let '(g, disk, log) := st in
  let g := match seed with Some s => seed_rng L s | None => g end in
  disk ←a make_dirs [out_dir] disk;
  let shards := shard_paths out_dir subdirs in
  disk ←a make_dirs shards disk;
  make_docs (seq 0 (Z.to_nat total_files)) shards min_words max_words
            keywords (g, disk, log).

Definition main (a : GenArgs) (st : gen_state) : attempt gen_state :=
  st' ←a make_files (mkpath L (a_out a)) (Z.max 1 (a_files a))
           (Z.max 1 (a_subdirs a)) (Z.max 5 (a_min_words a))
           (Z.max 5 (a_max_words a)) (a_keywords a) (Some (a_seed a)) st;
  let '(g, disk, log) := st' in
  Done (g, disk, log ++ [Report (a_files a) (a_out a) (a_subdirs a)]).

End Generate.

(** [w] is one of the three casings that [mutate_case] gives to [kw]. *)
Definition case_variant (L : PyLib) (kw w : string) : Prop :=
  w = str_lower L kw ∨ w = str_upper L kw ∨ w = str_title L kw.

(** A word of a generated file: a word of the vocabulary or a keyword in one
    of the three casings. *)
Definition generated_word (L : PyLib) (vocab keywords : list string)
    (w : string) : Prop :=
  w ∈ vocab ∨ ∃ kw, kw ∈ keywords ∧ case_variant L kw w.

(** The words of one generated file: between [max(5, min_words)] and three
    times [max(min_words, max_words)] of them, each a word of [BASIC_VOCAB]
    or a keyword in one of the three casings. *)
Definition good_words (L : PyLib) (min_words max_words : Z)
    (keywords ws : list string) : Prop :=
  Z.max 5 min_words ≤ Z.of_nat (length ws) ≤ 3 * Z.max min_words max_words
  ∧ Forall (generated_word L BASIC_VOCAB keywords) ws.

(** A file system that keeps the list of the files written, in order; every
    operation succeeds. *)
Definition recording : Files := {|
  fs := list (Path * string);
  mkdir := λ _ disk, Ok disk;
  write_text := λ p text disk, (None, disk ++ [(p, text)]);
|}.

(** A library for running the generator: floats are thousandths, the state
    of [random] is a counter. *)
Program Definition demo_lib : PyLib := {|
  float := Z;
  flt := Z.ltb;
  fle := Z.leb;
  f0 := 0;
  f0_7 := 700;
  f0_85 := 850;
  f0_2 := 200;
  f0_75 := 750;
  f0_01 := 10;
  f0_05 := 50;
  rng := nat;
  seed_rng := λ s, Z.to_nat s;
  random := λ g, ((Z.of_nat g * 7) `mod` 1000, S g);
  uniform := λ a b g, (a + (Z.of_nat g `mod` (b - a + 1)), S g);
  randbelow := λ n g, ((g mod n)%nat, S g);
  randrange := λ a b g, (a + (Z.of_nat g `mod` (b - a + 1)), S g);
  str_lower := lower_string;
  str_upper := λ s, s;
  str_title := λ s, s;
  mkpath := λ s, s;
  joinpath := λ p name, p +:+ "/" +:+ name;
|}.
Next Obligation. intros n g Hn. simpl. apply Nat.mod_upper_bound. lia. Qed.
Next Obligation.
  intros a b g Hab. simpl.
  pose proof (Z.mod_pos_bound (Z.of_nat g) (b - a + 1) ltac:(lia)). lia.
Qed.

End Generator.

Example chunked_7_3 :
  chunked ["a"; "b"; "c"; "d"; "e"; "f"; "g"] 3
  = [["a"; "b"; "c"]; ["d"; "e"; "f"]; ["g"]].
Proof. reflexivity. Qed.

Example scan_demo :
  scan_files demo_env demo_files ["rose"]
  = Ok {[ "rose" := ["docs/a.txt"; "docs/c.txt"] ]}.
Proof. vm_compute. reflexivity. Qed.

Example enumerate_demo :
  enumerate demo_env "docs" "**/*.txt" = Ok demo_files.
Proof. vm_compute. reflexivity. Qed.

(** ** Properties of the partitioner *)

Section Chunked.
Context {A : Type}.
Implicit Types (seq : list A) (i stop step k n : Z) (j : nat).

Lemma range_from_lookup fuel i stop step j :
  0 < step → stop - i ≤ Z.of_nat fuel →
  range_from fuel i stop step !! j
  = if decide (i + Z.of_nat j * step < stop)
    then Some (i + Z.of_nat j * step) else None.
Proof.
  intros Hstep. revert i j.
  induction fuel as [|fuel IH]; intros i j Hfuel; simpl.
  - case_decide; [nia | done].
  - destruct (decide (i < stop)) as [Hi|Hi].
    + destruct j as [|j]; simpl.
      * rewrite Z.add_0_r. by rewrite decide_True.
      * rewrite IH by lia.
        replace (i + step + Z.of_nat j * step)
          with (i + Z.of_nat (S j) * step) by lia.
        done.
    + rewrite lookup_nil. case_decide; [nia | done].
Qed.

Lemma range_lookup stop step j :
  0 < step →
  range 0 stop step !! j
  = if decide (Z.of_nat j * step < stop)
    then Some (Z.of_nat j * step) else None.
Proof.
  intros Hstep. unfold range. rewrite range_from_lookup by lia. done.
Qed.

Lemma concat_slices fuel i seq step :
  0 < step → 0 ≤ i → Z.of_nat (length seq) - i ≤ Z.of_nat fuel →
  concat ((λ i, slice seq i (i + step))
            <$> range_from fuel i (Z.of_nat (length seq)) step)
  = drop (Z.to_nat i) seq.
Proof.
  intros Hstep. revert i.
  induction fuel as [|fuel IH]; intros i Hi Hfuel; simpl.
  - by rewrite drop_ge by lia.
  - case_decide; simpl.
    + rewrite IH by lia. unfold slice.
      replace (Z.to_nat (i + step))
        with (Z.to_nat i + Z.to_nat (i + step - i))%nat by lia.
      rewrite <- drop_drop. by rewrite take_drop.
    + by rewrite drop_ge by lia.
Qed.

Lemma chunk_size_pos len n : 0 < chunk_size len n.
Proof. unfold chunk_size. lia. Qed.

(** For a non-empty list the chunk size is the ceiling of [len / n]. *)
Lemma chunk_size_ceil len n :
  0 < len → 0 < n →
  n * (chunk_size len n - 1) < len ≤ n * chunk_size len n.
Proof.
  intros Hlen Hn. unfold chunk_size.
  rewrite decide_False by lia.
  pose proof (Z.div_mod len n ltac:(lia)) as Hdm.
  pose proof (Z.mod_pos_bound len n Hn) as Hmod.
  assert (0 ≤ len `div` n) by (apply Z.div_pos; lia).
  case_decide; nia.
Qed.

Lemma chunked_lookup seq n j :
  chunked seq n !! j
  = let k := chunk_size (Z.of_nat (length seq)) n in
    if decide (Z.of_nat j * k < Z.of_nat (length seq))
    then Some (take (Z.to_nat k) (drop (j * Z.to_nat k) seq)) else None.
Proof.
  pose proof (chunk_size_pos (Z.of_nat (length seq)) n) as Hk.
  unfold chunked. rewrite list_lookup_fmap, range_lookup by done. simpl.
  case_decide; simpl; [|done].
  unfold slice. do 3 f_equal; lia.
Qed.

Lemma chunked_length seq n :
  let k := chunk_size (Z.of_nat (length seq)) n in
  Z.of_nat (length seq) ≤ Z.of_nat (length (chunked seq n)) * k
  ∧ (Z.of_nat (length (chunked seq n)) - 1) * k < Z.of_nat (length seq)
      `max` 1.
Proof.
  intros k.
  pose proof (chunk_size_pos (Z.of_nat (length seq)) n) as Hk. fold k in Hk.
  split.
  - pose proof (lookup_ge_None_2 (chunked seq n) (length (chunked seq n))
                  ltac:(lia)) as Hnone.
    rewrite chunked_lookup in Hnone. simpl in Hnone. fold k in Hnone.
    case_decide; [done | lia].
  - destruct (length (chunked seq n)) as [|m] eqn:Hlen; [lia|].
    destruct (lookup_lt_is_Some_2 (chunked seq n) m ltac:(lia)) as [c Hc].
    rewrite chunked_lookup in Hc. simpl in Hc. fold k in Hc.
    case_decide; [lia | done].
Qed.

Lemma chunked_concat seq n : concat (chunked seq n) = seq.
Proof.
  unfold chunked, range.
  rewrite concat_slices; [done | apply chunk_size_pos | lia | lia].
Qed.

Lemma chunked_nil n : chunked (@nil A) n = [].
Proof. reflexivity. Qed.

Lemma elem_of_concat (ls : list (list A)) x :
  x ∈ concat ls ↔ ∃ c, c ∈ ls ∧ x ∈ c.
Proof.
  induction ls as [|c ls IH]; simpl.
  - split; [by intros ?%elem_of_nil | by intros (? & ?%elem_of_nil & _)].
  - rewrite elem_of_app, IH. split.
    + intros [Hx | (c' & Hc' & Hx)].
      * exists c. split; [left | done].
      * exists c'. split; [by right | done].
    + intros (c' & [-> | Hc']%elem_of_cons & Hx); [by left | right; eauto].
Qed.

Lemma chunked_elem seq n x :
  x ∈ seq ↔ ∃ c, c ∈ chunked seq n ∧ x ∈ c.
Proof. rewrite <- (chunked_concat seq n) at 1. apply elem_of_concat. Qed.

Lemma concat_NoDup_lookup (ls : list (list A)) (i j : nat) ci cj x :
  NoDup (concat ls) →
  ls !! i = Some ci → ls !! j = Some cj → x ∈ ci → x ∈ cj → i = j.
Proof.
  revert i j. induction ls as [|c ls IH]; intros i j Hnd Hi Hj Hxi Hxj.
  { by rewrite lookup_nil in Hi. }
  simpl in Hnd. apply NoDup_app in Hnd as (_ & Hdisj & Hnd).
  assert (∀ m cm, ls !! m = Some cm → x ∈ cm → x ∈ concat ls) as Hin.
  { intros m cm Hm Hx. apply elem_of_concat. exists cm. split; [|done].
    by eapply list_elem_of_lookup_2. }
  destruct i as [|i], j as [|j]; simpl in *; simplify_eq.
  - done.
  - exfalso. eapply Hdisj; eauto.
  - exfalso. eapply Hdisj; eauto.
  - f_equal. eauto.
Qed.

End Chunked.

(** ** Properties of the scanner *)

Lemma prefix_spec s t :
  String.prefix s t = true ↔ ∃ post, t = s +:+ post.
Proof.
  revert t. induction s as [|a s IH]; intros t.
  - destruct t; simpl; split; eauto.
  - destruct t as [|b t]; simpl.
    + split; [done | by intros [? ?]].
    + destruct (ascii_dec a b) as [->|Hne].
      * rewrite IH.
        split; intros [post Hpost]; exists post;
          change (String b s +:+ post) with (String b (s +:+ post)) in *;
          congruence.
      * split; [done | intros [post Hpost]].
        change (String a s +:+ post) with (String a (s +:+ post)) in Hpost.
        congruence.
Qed.

Lemma contains_spec needle hay :
  contains needle hay = true ↔ is_substring needle hay.
Proof.
  unfold is_substring. induction hay as [|c hay IH].
  - cbn [contains]. rewrite orb_false_r, prefix_spec. split.
    + intros [post ->]. by exists "", post.
    + intros (pre & post & Heq). destruct pre; [by exists post | done].
  - cbn [contains]. rewrite orb_true_iff, IH, prefix_spec. split.
    + intros [[post ->] | (pre & post & ->)].
      * by exists "", post.
      * by exists (String c pre), post.
    + intros (pre & post & Heq). destruct pre as [|c' pre].
      * left. by exists post.
      * right. change (String c' pre +:+ needle +:+ post)
          with (String c' (pre +:+ needle +:+ post)) in Heq.
        injection Heq as -> ->. eauto.
Qed.

Section Scanner.
Variable E : Env.
Implicit Types (out d : Dict) (kw k : string) (p : Path).
Implicit Types (keywords : list string) (files : list Path).

Lemma matches_spec kw p : matches E kw p = true ↔ readable_match E kw p.
Proof.
  unfold matches, readable_match. destruct (read_text E p) as [content|e].
  - rewrite contains_spec. split; [eauto | by intros (? & [= <-] & ?)].
  - split; [done | by intros (? & ? & _)].
Qed.

Lemma foldl_insert_nil_lookup keywords d k :
  foldl (λ d kw, <[kw := []]> d) d keywords !! k
  = if decide (k ∈ keywords) then Some [] else d !! k.
Proof.
  revert d. induction keywords as [|kw keywords IH]; intros d; simpl.
  - destruct (decide (k ∈ [])) as [Hin%elem_of_nil|]; done.
  - rewrite IH. destruct (decide (k ∈ keywords)) as [Hin|Hin].
    + rewrite decide_True; [done | by right].
    + destruct (decide (kw = k)) as [->|Hne].
      * rewrite lookup_insert_eq, decide_True; [done | by left].
      * rewrite lookup_insert_ne by done. rewrite decide_False; [done|].
        intros [->|?]%elem_of_cons; done.
Qed.

Lemma empty_result_lookup keywords k :
  empty_result keywords !! k
  = if decide (k ∈ keywords) then Some [] else None.
Proof. unfold empty_result. by rewrite foldl_insert_nil_lookup. Qed.

Lemma dom_empty_result keywords :
  dom (empty_result keywords) = list_to_set keywords.
Proof.
  apply set_eq. intros k.
  rewrite elem_of_dom, empty_result_lookup, elem_of_list_to_set.
  case_decide; split; try done; by intros [? ?].
Qed.

Lemma count_kw_cons_eq k keywords :
  count_kw k (k :: keywords) = S (count_kw k keywords).
Proof. unfold count_kw. by rewrite filter_cons_True. Qed.

Lemma count_kw_cons_ne k kw keywords :
  kw ≠ k → count_kw k (kw :: keywords) = count_kw k keywords.
Proof. intros. unfold count_kw. by rewrite filter_cons_False. Qed.

Lemma count_kw_pos k keywords : k ∈ keywords ↔ (0 < count_kw k keywords)%nat.
Proof.
  unfold count_kw. induction keywords as [|kw keywords IH].
  - split; [by intros ?%elem_of_nil | simpl; lia].
  - rewrite elem_of_cons, IH. destruct (decide (kw = k)) as [->|Hne].
    + rewrite filter_cons_True by done. simpl. split; [lia | by left].
    + rewrite filter_cons_False by done. split; [|by right].
      by intros [->|?].
Qed.

(** The inner loop of [scan_files] never raises when every keyword is a key
    of [out], and it appends [p] once per occurrence of a matching keyword. *)
Lemma record_loop_spec text p keywords out :
  (∀ kw, kw ∈ keywords → is_Some (out !! kw)) →
  ∃ out',
    for_each (zip keywords (lower E <$> keywords)) (record_match text p) out
    = Ok out'
    ∧ ∀ k, out' !! k
           = (λ l, l ++ if contains (lower E k) text
                        then replicate (count_kw k keywords) p else [])
             <$> out !! k.
Proof.
  revert out. induction keywords as [|kw keywords IH]; intros out Hkeys.
  - exists out. split; [done|]. intros k.
    destruct (out !! k) as [l|]; simpl; [|done].
    f_equal. destruct (contains _ _); by rewrite app_nil_r.
  - cbn [fmap list_fmap zip zip_with for_each record_match].
    destruct (contains (lower E kw) text) eqn:Hc.
    + destruct (Hkeys kw ltac:(by left)) as [l Hl].
      unfold append_at. rewrite Hl. cbn [rbind].
      destruct (IH (<[kw := l ++ [p]]> out)) as (out' & -> & Hout').
      { intros kw' Hin. destruct (decide (kw = kw')) as [->|Hne].
        - rewrite lookup_insert_eq. eauto.
        - rewrite lookup_insert_ne by done. apply Hkeys. by right. }
      exists out'. split; [done|]. intros k. rewrite Hout'.
      destruct (decide (kw = k)) as [->|Hne].
      * rewrite lookup_insert_eq, Hl, Hc, count_kw_cons_eq. simpl.
        by rewrite <- app_assoc.
      * rewrite lookup_insert_ne by done. by rewrite count_kw_cons_ne.
    + cbn [rbind].
      destruct (IH out) as (out' & -> & Hout').
      { intros kw' Hin. apply Hkeys. by right. }
      exists out'. split; [done|]. intros k. rewrite Hout'.
      destruct (decide (kw = k)) as [->|Hne].
      * by rewrite Hc.
      * by rewrite count_kw_cons_ne.
Qed.

Lemma scan_file_spec keywords out p :
  (∀ kw, kw ∈ keywords → is_Some (out !! kw)) →
  ∃ out',
    scan_file E keywords (lower E <$> keywords) out p = Ok out'
    ∧ ∀ k, out' !! k
           = (λ l, l ++ if matches E k p
                        then replicate (count_kw k keywords) p else [])
             <$> out !! k.
Proof.
  intros Hkeys. unfold scan_file, matches.
  destruct (read_text E p) as [content|e].
  - by apply record_loop_spec.
  - exists out. split; [done|]. intros k.
    destruct (out !! k) as [l|]; simpl; [|done]. by rewrite app_nil_r.
Qed.

Lemma scan_loop_spec keywords files out :
  (∀ kw, kw ∈ keywords → is_Some (out !! kw)) →
  ∃ out',
    for_each files (scan_file E keywords (lower E <$> keywords)) out = Ok out'
    ∧ ∀ k, out' !! k = (λ l, l ++ hits E k keywords files) <$> out !! k.
Proof.
  revert out. induction files as [|p files IH]; intros out Hkeys.
  - exists out. split; [done|]. intros k.
    destruct (out !! k) as [l|]; simpl; [|done]. by rewrite app_nil_r.
  - cbn [for_each].
    destruct (scan_file_spec keywords out p Hkeys) as (out1 & -> & Hout1).
    cbn [rbind].
    destruct (IH out1) as (out' & -> & Hout').
    { intros kw Hin. rewrite Hout1. apply fmap_is_Some. by apply Hkeys. }
    exists out'. split; [done|]. intros k. rewrite Hout', Hout1.
    destruct (out !! k) as [l|]; simpl; [|done].
    by rewrite <- app_assoc.
Qed.

(** [scan_files] always returns, and what it returns is determined key by
    key. *)
Lemma scan_files_spec files keywords :
  ∃ d, scan_files E files keywords = Ok d
       ∧ ∀ k, d !! k = if decide (k ∈ keywords)
                       then Some (hits E k keywords files) else None.
Proof.
  unfold scan_files.
  destruct (scan_loop_spec keywords files (empty_result keywords))
    as (d & Hd & Hlookup).
  { intros kw Hin. rewrite empty_result_lookup, decide_True by done. eauto. }
  exists d. split; [done|]. intros k.
  rewrite Hlookup, empty_result_lookup. by case_decide.
Qed.

Lemma hits_app k keywords files1 files2 :
  hits E k keywords (files1 ++ files2)
  = hits E k keywords files1 ++ hits E k keywords files2.
Proof. unfold hits. apply bind_app. Qed.

Lemma elem_of_hits k keywords files p :
  p ∈ hits E k keywords files
  ↔ p ∈ files ∧ k ∈ keywords ∧ readable_match E k p.
Proof.
  unfold hits. rewrite list_elem_of_bind. split.
  - intros (q & Hq & Hin). destruct (matches E k q) eqn:Hm.
    + apply elem_of_replicate in Hq as [-> Hn].
      split_and!; [done | apply count_kw_pos; lia | by apply matches_spec].
    + by apply elem_of_nil in Hq.
  - intros (Hin & Hk & Hm). exists p. split; [|done].
    apply matches_spec in Hm. rewrite Hm. apply elem_of_replicate.
    split; [done|]. apply count_kw_pos in Hk. lia.
Qed.

End Scanner.

(** ** Properties of the two aggregators *)

Section Aggregator.
Implicit Types (a b dst src d : Dict) (k : string) (v : list Path).
Implicit Types (items : list (string * list Path)).

Lemma merge_fold_lookup items a k :
  NoDup items.*1 →
  foldl (λ a kv, <[kv.1 := default [] (a !! kv.1) ++ kv.2]> a) a items !! k
  = match (list_to_map items : Dict) !! k with
    | Some v => Some (default [] (a !! k) ++ v)
    | None => a !! k
    end.
Proof.
  revert a. induction items as [|[k' v'] items IH]; intros a Hnd.
  - done.
  - apply NoDup_cons in Hnd as [Hk' Hnd]. cbn [foldl fst snd].
    rewrite IH by done. cbn [list_to_map foldr fst snd uncurry].
    destruct (decide (k' = k)) as [->|Hne].
    + rewrite (not_elem_of_list_to_map_1 items k) by done.
      by rewrite !lookup_insert_eq.
    + by rewrite !lookup_insert_ne by done.
Qed.

(** [merge] is total; under [k] it extends what [a] had (or an empty list)
    by what [b] has. *)
Lemma merge_lookup a b k :
  merge a b !! k
  = match b !! k with
    | Some v => Some (default [] (a !! k) ++ v)
    | None => a !! k
    end.
Proof.
  unfold merge. rewrite merge_fold_lookup by apply NoDup_fst_map_to_list.
  by rewrite list_to_map_to_list.
Qed.

Lemma merge_items_spec items dst :
  NoDup items.*1 →
  (∀ k, k ∈ items.*1 → is_Some (dst !! k)) →
  ∃ dst',
    merge_items items dst = (Ok (), dst')
    ∧ ∀ k, dst' !! k
           = match (list_to_map items : Dict) !! k with
             | Some v => (λ l, l ++ v) <$> dst !! k
             | None => dst !! k
             end.
Proof.
  revert dst. induction items as [|[k' v'] items IH]; intros dst Hnd Hkeys.
  - by exists dst.
  - apply NoDup_cons in Hnd as [Hk' Hnd]. cbn [merge_items].
    destruct (Hkeys k' ltac:(by left)) as [l Hl].
    unfold extend_at. rewrite Hl.
    destruct (IH (<[k' := l ++ v']> dst) Hnd) as (dst' & -> & Hdst').
    { intros k Hin. destruct (decide (k' = k)) as [->|Hne].
      - rewrite lookup_insert_eq. eauto.
      - rewrite lookup_insert_ne by done. apply Hkeys. by right. }
    exists dst'. split; [done|]. intros k. rewrite Hdst'.
    cbn [list_to_map foldr fst snd uncurry].
    destruct (decide (k' = k)) as [->|Hne].
    + rewrite (not_elem_of_list_to_map_1 items k) by done.
      by rewrite !lookup_insert_eq, Hl.
    + by rewrite !lookup_insert_ne by done.
Qed.

(** [merge_into] raises no [KeyError] when every key of [src] is a key of
    [dst]. *)
Lemma merge_into_spec dst src :
  dom src ⊆ dom dst →
  ∃ dst',
    merge_into dst src = (Ok (), dst')
    ∧ ∀ k, dst' !! k
           = match src !! k with
             | Some v => (λ l, l ++ v) <$> dst !! k
             | None => dst !! k
             end.
Proof.
  intros Hdom. unfold merge_into.
  destruct (merge_items_spec (map_to_list src) dst) as (dst' & Hrun & Hdst').
  { apply NoDup_fst_map_to_list. }
  { intros k [[k' v] [-> Hin]]%list_elem_of_fmap.
    apply elem_of_map_to_list in Hin.
    apply elem_of_dom, Hdom, elem_of_dom. eauto. }
  exists dst'. split; [done|]. intros k.
  by rewrite Hdst', list_to_map_to_list.
Qed.

(** A missing key makes [merge_into] raise: the guard is not vacuous. *)
Example merge_into_missing_key :
  merge_into ∅ {[ "x" := ["f"] ]} = (Raise (KeyError "x"), ∅).
Proof. vm_compute. reflexivity. Qed.

End Aggregator.

(** ** Properties of a run *)

Section Runs.
Variable E : Env.
Implicit Types (d shared acc : Dict) (k : string) (keywords : list string).
Implicit Types (files chunk : list Path) (order : list (list Path)).

Lemma scan_files_records files keywords :
  ∃ d, scan_files E files keywords = Ok d
       ∧ records d keywords (λ k, hits E k keywords files).
Proof. apply scan_files_spec. Qed.

Lemma records_dom d keywords paths :
  records d keywords paths → dom d = list_to_set keywords.
Proof.
  intros Hd. apply set_eq. intros k.
  rewrite elem_of_dom, Hd, elem_of_list_to_set.
  case_decide; split; try done; by intros [? ?].
Qed.

Lemma records_empty_result keywords :
  records (empty_result keywords) keywords (λ _, []).
Proof. intros k. apply empty_result_lookup. Qed.

Lemma records_ext d keywords paths1 paths2 :
  (∀ k, k ∈ keywords → paths1 k = paths2 k) →
  records d keywords paths1 → records d keywords paths2.
Proof.
  intros Heq Hd k. rewrite Hd. case_decide; [|done]. by rewrite Heq.
Qed.

Lemma records_same_paths d1 d2 keywords paths1 paths2 :
  records d1 keywords paths1 → records d2 keywords paths2 →
  (∀ k, paths1 k ≡ₚ paths2 k) → same_paths d1 d2.
Proof.
  intros H1 H2 Hperm k. rewrite H1, H2.
  case_decide; constructor. apply Hperm.
Qed.

Lemma records_merge acc part keywords paths1 paths2 :
  records acc keywords paths1 → records part keywords paths2 →
  records (merge acc part) keywords (λ k, paths1 k ++ paths2 k).
Proof.
  intros Hacc Hpart k. rewrite merge_lookup, Hacc, Hpart.
  by case_decide.
Qed.

Lemma records_merge_into shared part keywords paths1 paths2 :
  records shared keywords paths1 → records part keywords paths2 →
  ∃ shared',
    merge_into shared part = (Ok (), shared')
    ∧ records shared' keywords (λ k, paths1 k ++ paths2 k).
Proof.
  intros Hshared Hpart.
  destruct (merge_into_spec shared part) as (shared' & Hrun & Hlookup).
  { by rewrite (records_dom _ _ _ Hshared), (records_dom _ _ _ Hpart). }
  exists shared'. split; [done|]. intros k.
  rewrite Hlookup, Hshared, Hpart. by case_decide.
Qed.

Lemma concat_Permutation (ls1 ls2 : list (list Path)) :
  ls1 ≡ₚ ls2 → concat ls1 ≡ₚ concat ls2.
Proof.
  induction 1 as [|c ls1 ls2 _ IH|c1 c2 ls|ls1 ls2 ls3 _ IH1 _ IH2]; simpl.
  - done.
  - by rewrite IH.
  - rewrite !app_assoc. f_equiv. apply Permutation_app_comm.
  - by etrans.
Qed.

Lemma hits_Permutation k keywords files1 files2 :
  files1 ≡ₚ files2 → hits E k keywords files1 ≡ₚ hits E k keywords files2.
Proof. intros Hperm. unfold hits. by rewrite Hperm. Qed.

(** Every worker of the process variant puts its dictionary on the queue. *)
Lemma mp_queue_spec order keywords :
  Forall2 (λ chunk part, scan_files E chunk keywords = Ok part)
          order (mp_queue E order keywords).
Proof.
  induction order as [|chunk order IH]; [constructor|].
  unfold mp_queue. cbn [omap list_omap]. unfold mp_worker at 1.
  destruct (scan_files_spec E chunk keywords) as (d & Hd & _).
  rewrite Hd. by constructor.
Qed.

Lemma records_fold_merge order parts keywords acc paths :
  Forall2 (λ chunk part, scan_files E chunk keywords = Ok part) order parts →
  records acc keywords paths →
  records (foldl merge acc parts) keywords
          (λ k, paths k ++ hits E k keywords (concat order)).
Proof.
  intros Hparts. revert acc paths.
  induction Hparts as [|chunk part order parts Hscan _ IH];
    intros acc paths Hacc.
  - eapply records_ext; [|done]. intros k _. simpl.
    by rewrite app_nil_r.
  - cbn [foldl concat].
    destruct (scan_files_records chunk keywords) as (d & Hd & Hrec).
    rewrite Hscan in Hd. injection Hd as ->.
    eapply records_ext; [|apply IH; by eapply records_merge].
    intros k _. simpl. by rewrite hits_app, app_assoc.
Qed.

(** The process variant always prints, whatever the order of arrival. *)
Lemma mp_run_spec order keywords :
  ∃ d, mp_run E order keywords = Printed d
       ∧ records d keywords (λ k, hits E k keywords (concat order)).
Proof.
  pose proof (mp_queue_spec order keywords) as Hq.
  unfold mp_run. rewrite decide_True by (symmetry; by eapply Forall2_length).
  eexists. split; [done|].
  eapply records_ext;
    [|by eapply records_fold_merge, records_empty_result].
  done.
Qed.

(** In the thread variant every worker ends normally, whatever the order in
    which the threads take the lock. *)
Lemma run_threads_spec order keywords shared paths :
  records shared keywords paths →
  ∃ d, run_threads E order keywords shared
       = (replicate (length order) (Ok ()), d)
       ∧ records d keywords
                 (λ k, paths k ++ hits E k keywords (concat order)).
Proof.
  revert shared paths.
  induction order as [|chunk order IH]; intros shared paths Hshared.
  - exists shared. split; [done|].
    eapply records_ext; [|done]. intros k _. simpl. by rewrite app_nil_r.
  - cbn [run_threads]. unfold th_worker.
    destruct (scan_files_records chunk keywords) as (part & -> & Hpart).
    destruct (records_merge_into _ _ _ _ _ Hshared Hpart)
      as (shared' & -> & Hshared').
    destruct (IH _ _ Hshared') as (d & -> & Hd).
    exists d. split; [done|].
    eapply records_ext; [|done]. intros k _. simpl.
    by rewrite hits_app, app_assoc.
Qed.

Lemma th_run_spec order keywords :
  ∃ d, th_run E order keywords = Printed d
       ∧ records d keywords (λ k, hits E k keywords (concat order)).
Proof.
  destruct (run_threads_spec order keywords _ _
              (records_empty_result keywords)) as (d & Hrun & Hd).
  exists d. unfold th_run. rewrite Hrun. split; [done|].
  eapply records_ext; [|done]. done.
Qed.

(** Merging the chunks of [files] in any order records, under every key, a
    permutation of what one scan of [files] records. *)
Lemma hits_chunked k keywords files n order :
  order ≡ₚ chunked files n →
  hits E k keywords (concat order) ≡ₚ hits E k keywords files.
Proof.
  intros Hperm. apply hits_Permutation.
  rewrite (concat_Permutation _ _ Hperm). by rewrite chunked_concat.
Qed.

End Runs.

(** ** The partition of the file list *)

(** C4. For every file list and every worker count [W ≥ 1] the chunks of
    [chunked files W] concatenate to the file list itself: no file is left
    out, and a file (the enumerated paths being distinct) lies in one chunk
    only. *)
Theorem chunked_cover (files : list Path) (W : Z) :
  1 ≤ W →
  concat (chunked files W) = files
  ∧ (∀ f, f ∈ files ↔ ∃ chunk, chunk ∈ chunked files W ∧ f ∈ chunk)
  ∧ (NoDup files →
     ∀ (i j : nat) ci cj f,
       chunked files W !! i = Some ci → chunked files W !! j = Some cj →
       f ∈ ci → f ∈ cj → i = j).
Proof.
  intros _. split_and!.
  - apply chunked_concat.
  - intros f. apply chunked_elem.
  - intros Hnd i j ci cj f. apply concat_NoDup_lookup.
    by rewrite chunked_concat.
Qed.

Lemma chunked_cover_witness :
  1 ≤ 3
  ∧ concat (chunked demo_files 3) = demo_files
  ∧ (∀ f, f ∈ demo_files
          ↔ ∃ chunk, chunk ∈ chunked demo_files 3 ∧ f ∈ chunk)
  ∧ (NoDup demo_files →
     ∀ (i j : nat) ci cj f,
       chunked demo_files 3 !! i = Some ci →
       chunked demo_files 3 !! j = Some cj →
       f ∈ ci → f ∈ cj → i = j).
Proof. split; [lia | apply (chunked_cover demo_files 3); lia]. Defined.

(** C5. With [W' = W] for a positive [W] and [W' = 1] otherwise, the chunk
    size [k] used by [chunked] on a non-empty list is the ceiling of
    [len(files) / W'].  For every [j] with [j * k < len(files)] the chunk
    number [j] is emitted and is the slice of [files] from [j * k] of length
    [k]; there is no other chunk, and the chunks concatenate to [files].
    Every chunk but the last has exactly [k] files and the last has between
    [1] and [k].  An empty list yields no chunk, a non-empty list at least
    one, and for [W ≥ 1] there are at most [W] chunks. *)
Theorem chunked_shape (files : list Path) (W : Z) :
  let len := Z.of_nat (length files) in
  let W' := if decide (W ≤ 0) then 1 else W in
  let k := chunk_size len W in
  let chunks := chunked files W in
  (0 < len → W' * (k - 1) < len ≤ W' * k)
  ∧ (∀ j : nat,
       Z.of_nat j * k < len →
       chunks !! j = Some (take (Z.to_nat k) (drop (j * Z.to_nat k) files)))
  ∧ (∀ j : nat, len ≤ Z.of_nat j * k → chunks !! j = None)
  ∧ concat chunks = files
  ∧ (∀ (j : nat) c,
       chunks !! j = Some c →
       c = take (Z.to_nat k) (drop (j * Z.to_nat k) files)
       ∧ (0 < length c ≤ Z.to_nat k)%nat
       ∧ (S j < length chunks → length c = Z.to_nat k)%nat)
  ∧ (files = [] → chunks = [])
  ∧ (files ≠ [] → chunks ≠ [])
  ∧ (1 ≤ W → Z.of_nat (length chunks) ≤ W).
Proof.
  intros len W' k chunks.
  pose proof (chunk_size_pos len W) as Hk. fold k in Hk.
  assert (k = chunk_size len W') as HkW'.
  { unfold k, W', chunk_size. destruct (decide (W ≤ 0)) as [HW|HW].
    - destruct (decide (1 ≤ 0)); [lia | done].
    - destruct (decide (W ≤ 0)); [lia | done]. }
  assert (∀ j : nat,
            chunks !! j
            = if decide (Z.of_nat j * k < len)
              then Some (take (Z.to_nat k) (drop (j * Z.to_nat k) files))
              else None) as Hlookup.
  { intros j. unfold chunks. by rewrite chunked_lookup. }
  split_and!.
  - intros Hlen. rewrite HkW'. apply chunk_size_ceil; [done|].
    unfold W'. case_decide; lia.
  - intros j Hj. by rewrite Hlookup, decide_True.
  - intros j Hj. by rewrite Hlookup, decide_False by lia.
  - apply chunked_concat.
  - intros j c Hc. rewrite Hlookup in Hc.
    case_decide as Hj; [|done]. injection Hc as <-. split_and!.
    + done.
    + rewrite length_take, length_drop. unfold len in *. nia.
    + rewrite length_take, length_drop. unfold len in *. nia.
    + intros Hnext.
      destruct (lookup_lt_is_Some_2 chunks (S j) Hnext) as [c' Hc'].
      rewrite Hlookup in Hc'. case_decide as Hj'; [|done].
      rewrite length_take, length_drop. unfold len in *. nia.
  - by intros ->.
  - intros Hne Hnil.
    assert (0 < len) as Hlen.
    { unfold len. destruct files; [done | simpl; lia]. }
    pose proof (Hlookup 0%nat) as H0. rewrite Hnil in H0.
    rewrite decide_True in H0 by lia. done.
  - intros HW. unfold chunks.
    destruct (chunked_length files W) as [Hlo Hhi]. fold len k in Hlo, Hhi.
    destruct (decide (len = 0)) as [Hlen|Hlen].
    + assert (files = []) as -> by (apply length_zero_iff_nil; lia).
      simpl. lia.
    + assert (0 < len) as Hpos by (unfold len in *; lia).
      assert (W * (k - 1) < len ≤ W * k) as Hceil.
      { unfold k. apply chunk_size_ceil; lia. }
      nia.
Qed.

Example chunked_shape_10_4 :
  chunk_size 10 4 = 3
  ∧ length <$> chunked (replicate 10 "f") 4 = [3; 3; 3; 1]%nat
  ∧ length <$> chunked (replicate 2 "f") 8 = [1; 1]%nat
  ∧ length <$> chunked (replicate 5 "f") 0 = [5]%nat.
Proof. vm_compute. done. Qed.

(** ** What the scanner records *)

Lemma records_listed d keywords paths k f :
  records d keywords paths → listed d k f ↔ k ∈ keywords ∧ f ∈ paths k.
Proof.
  intros Hd. unfold listed. rewrite Hd. case_decide; split.
  - by intros (l & [= <-] & Hf).
  - intros [_ Hf]. eauto.
  - by intros (l & ? & _).
  - by intros [? _].
Qed.

Lemma records_eq (d1 d2 : Dict) keywords paths :
  records d1 keywords paths → records d2 keywords paths → d1 = d2.
Proof. intros H1 H2. apply map_eq. intros k. by rewrite H1, H2. Qed.

Lemma listed_hits E d keywords files files' k f :
  records d keywords (λ k, hits E k keywords files') →
  files' ≡ₚ files → f ∈ files → k ∈ keywords →
  listed d k f ↔ readable_match E k f.
Proof.
  intros Hd Hperm Hf Hk.
  rewrite (records_listed _ _ _ _ _ Hd), elem_of_hits, Hperm.
  split; [by intros (_ & _ & _ & Hm) | by intros Hm].
Qed.

(** C1. For a file [f] of the scanned list and a requested keyword [k]: [f]
    appears under [k] in the dictionary returned by [scan_files] exactly when
    reading [f] succeeded and its lower-cased content contains the
    lower-cased [k] as a substring; and the same holds for the merged result
    of both variants, for every worker count and every order in which the
    chunks are merged. *)
Theorem scan_membership E (files : list Path) (keywords : list string) f k :
  f ∈ files → k ∈ keywords →
  (∃ d, scan_files E files keywords = Ok d
        ∧ (listed d k f ↔ readable_match E k f))
  ∧ ∀ W order,
      order ≡ₚ chunked files W →
      (∃ d, mp_run E order keywords = Printed d
            ∧ (listed d k f ↔ readable_match E k f))
      ∧ (∃ d, th_run E order keywords = Printed d
              ∧ (listed d k f ↔ readable_match E k f)).
Proof.
  intros Hf Hk. split.
  - destruct (scan_files_records E files keywords) as (d & Hd & Hrec).
    exists d. split; [done|]. by eapply listed_hits.
  - intros W order Hperm.
    assert (concat order ≡ₚ files) as Hfiles.
    { rewrite (concat_Permutation _ _ Hperm). by rewrite chunked_concat. }
    split.
    + destruct (mp_run_spec E order keywords) as (d & Hd & Hrec).
      exists d. split; [done|]. by eapply listed_hits.
    + destruct (th_run_spec E order keywords) as (d & Hd & Hrec).
      exists d. split; [done|]. by eapply listed_hits.
Qed.

Lemma scan_membership_witness :
  "docs/c.txt" ∈ demo_files ∧ "rose" ∈ ["rose"]
  ∧ (∃ d, scan_files demo_env demo_files ["rose"] = Ok d
          ∧ (listed d "rose" "docs/c.txt"
             ↔ readable_match demo_env "rose" "docs/c.txt"))
  ∧ ∀ W order,
      order ≡ₚ chunked demo_files W →
      (∃ d, mp_run demo_env order ["rose"] = Printed d
            ∧ (listed d "rose" "docs/c.txt"
               ↔ readable_match demo_env "rose" "docs/c.txt"))
      ∧ (∃ d, th_run demo_env order ["rose"] = Printed d
              ∧ (listed d "rose" "docs/c.txt"
                 ↔ readable_match demo_env "rose" "docs/c.txt")).
Proof.
  assert ("docs/c.txt" ∈ demo_files) as Hf by (unfold demo_files; repeat constructor).
  assert ("rose" ∈ ["rose"]) as Hk by constructor.
  split; [exact Hf|]. split; [exact Hk|].
  exact (scan_membership demo_env demo_files ["rose"] _ _ Hf Hk).
Defined.

(** C7. A file whose read raises, whatever the exception, is skipped:
    [scan_files] still returns, and it returns exactly the dictionary it
    returns for the same chunk without that file; the unreadable file is
    listed under no keyword. *)
Theorem unreadable_file_skipped E (before after : list Path) bad e keywords :
  read_text E bad = Raise e →
  ∃ d, scan_files E (before ++ bad :: after) keywords = Ok d
       ∧ scan_files E (before ++ after) keywords = Ok d
       ∧ ∀ k, ¬ listed d k bad.
Proof.
  intros Hbad.
  destruct (scan_files_records E (before ++ bad :: after) keywords)
    as (d & Hd & Hrec).
  destruct (scan_files_records E (before ++ after) keywords)
    as (d' & Hd' & Hrec').
  assert (∀ k, hits E k keywords (before ++ bad :: after)
               = hits E k keywords (before ++ after)) as Hhits.
  { intros k. rewrite !hits_app. f_equal.
    change (bad :: after) with ([bad] ++ after). rewrite hits_app.
    unfold hits at 1, matches. simpl. by rewrite Hbad. }
  exists d. split_and!.
  - done.
  - rewrite Hd'. f_equal. eapply records_eq; [done|].
    apply (records_ext _ _ (λ k, hits E k keywords (before ++ bad :: after)));
      [|done].
    intros k _. by rewrite Hhits.
  - intros k. rewrite (records_listed _ _ _ _ _ Hrec), elem_of_hits.
    intros (_ & _ & _ & content & Hread & _). congruence.
Qed.

Lemma unreadable_file_skipped_witness :
  read_text demo_env "docs/locked.txt" = Raise PermissionError
  ∧ ∃ d, scan_files demo_env
           (["docs/a.txt"] ++ "docs/locked.txt" :: ["docs/c.txt"]) ["rose"]
         = Ok d
         ∧ scan_files demo_env (["docs/a.txt"] ++ ["docs/c.txt"]) ["rose"]
           = Ok d
         ∧ ∀ k, ¬ listed d k "docs/locked.txt".
Proof.
  split; [reflexivity|].
  apply (unreadable_file_skipped demo_env ["docs/a.txt"] ["docs/c.txt"]
           "docs/locked.txt" PermissionError ["rose"]).
  reflexivity.
Defined.

(** C9. When a keyword occurs twice in the keyword list, [scan_files] still
    returns; the dictionary has one entry for that keyword (its keys are the
    distinct keywords), and under it every matching file is appended twice,
    files in scan order. *)
Theorem duplicate_keyword E (files : list Path) (keywords : list string) k :
  count_kw k keywords = 2%nat →
  ∃ d, scan_files E files keywords = Ok d
       ∧ dom d = list_to_set keywords
       ∧ d !! k = Some (files ≫= λ p, if matches E k p then [p; p] else [])
       ∧ ∀ p, listed d k p ↔ p ∈ files ∧ readable_match E k p.
Proof.
  intros Hcount.
  assert (k ∈ keywords) as Hk by (apply count_kw_pos; lia).
  destruct (scan_files_records E files keywords) as (d & Hd & Hrec).
  exists d. split_and!.
  - done.
  - by eapply records_dom.
  - rewrite Hrec, decide_True by done. unfold hits. by rewrite Hcount.
  - intros p. rewrite (records_listed _ _ _ _ _ Hrec), elem_of_hits.
    split; [by intros (_ & Hp & _ & Hm) | by intros [Hp Hm]].
Qed.

Lemma duplicate_keyword_witness :
  count_kw "rose" ["rose"; "x"; "rose"] = 2%nat
  ∧ ∃ d, scan_files demo_env demo_files ["rose"; "x"; "rose"] = Ok d
         ∧ dom d = list_to_set ["rose"; "x"; "rose"]
         ∧ d !! "rose"
           = Some (demo_files
                     ≫= λ p, if matches demo_env "rose" p then [p; p] else [])
         ∧ ∀ p, listed d "rose" p
                ↔ p ∈ demo_files ∧ readable_match demo_env "rose" p.
Proof.
  split; [reflexivity|].
  apply (duplicate_keyword demo_env demo_files ["rose"; "x"; "rose"] "rose").
  reflexivity.
Defined.

Example scan_duplicate_demo :
  scan_files demo_env demo_files ["rose"; "x"; "rose"]
  = Ok {[ "rose" := ["docs/a.txt"; "docs/a.txt"; "docs/c.txt"; "docs/c.txt"];
          "x" := [] ]}.
Proof. vm_compute. reflexivity. Qed.

(** ** The two drivers *)

Section Drivers.
Variable E : Env.
Implicit Types (a : Args) (o : outcome) (d : Dict).

(** A run of the process variant ends with the uncaught exception of the
    enumeration or prints what the chunks, merged in some order, record. *)
Lemma mp_main_inv a o :
  mp_main E a o →
  (∃ e, enumerate E (arg_path a) (arg_glob a) = Raise e ∧ o = Uncaught e)
  ∨ (∃ files order d,
       enumerate E (arg_path a) (arg_glob a) = Ok files
       ∧ order ≡ₚ chunked files (mp_workers E a)
       ∧ o = Printed d
       ∧ records d (arg_keywords a)
                 (λ k, hits E k (arg_keywords a) (concat order))).
Proof.
  intros [e He|files order Hfiles Horder].
  - left. eauto.
  - right. destruct (mp_run_spec E order (arg_keywords a)) as (d & Hd & Hrec).
    exists files, order, d. by rewrite Hd.
Qed.

Lemma th_main_inv a o :
  th_main E a o →
  (∃ e, enumerate E (arg_path a) (arg_glob a) = Raise e ∧ o = Uncaught e)
  ∨ (∃ files order d,
       enumerate E (arg_path a) (arg_glob a) = Ok files
       ∧ order ≡ₚ chunked files (arg_workers a)
       ∧ o = Printed d
       ∧ records d (arg_keywords a)
                 (λ k, hits E k (arg_keywords a) (concat order))).
Proof.
  intros [e He|files order Hfiles Horder].
  - left. eauto.
  - right. destruct (th_run_spec E order (arg_keywords a)) as (d & Hd & Hrec).
    exists files, order, d. by rewrite Hd.
Qed.

(** Both drivers always have an outcome. *)
Lemma mp_main_total a : ∃ o, mp_main E a o.
Proof.
  destruct (enumerate E (arg_path a) (arg_glob a)) as [files|e] eqn:He.
  - eexists. by eapply (mp_main_scan E a files).
  - eexists. by apply mp_main_uncaught.
Qed.

Lemma th_main_total a : ∃ o, th_main E a o.
Proof.
  destruct (enumerate E (arg_path a) (arg_glob a)) as [files|e] eqn:He.
  - eexists. by eapply (th_main_scan E a files).
  - eexists. by apply th_main_uncaught.
Qed.

Lemma main_inv a o :
  mp_main E a o ∨ th_main E a o →
  (∃ e, enumerate E (arg_path a) (arg_glob a) = Raise e ∧ o = Uncaught e)
  ∨ (∃ files order d,
       enumerate E (arg_path a) (arg_glob a) = Ok files
       ∧ concat order ≡ₚ files
       ∧ o = Printed d
       ∧ records d (arg_keywords a)
                 (λ k, hits E k (arg_keywords a) (concat order))).
Proof.
  intros [[?|(files & order & d & Hf & Ho & -> & Hd)]%mp_main_inv
         |[?|(files & order & d & Hf & Ho & -> & Hd)]%th_main_inv];
    [by left| |by left|].
  - right. exists files, order, d. split_and!; try done.
    rewrite (concat_Permutation _ _ Ho). by rewrite chunked_concat.
  - right. exists files, order, d. split_and!; try done.
    rewrite (concat_Permutation _ _ Ho). by rewrite chunked_concat.
Qed.

Lemma enumerate_bad_root root pat :
  is_dir E root = Ok false → pattern_check E pat = None →
  enumerate E root pat = Ok [].
Proof.
  intros Hdir Hpat. unfold enumerate, Path_glob. by rewrite Hpat, Hdir.
Qed.

(** A pattern that [glob] rejects ends the run before the root is looked
    at. *)
Lemma enumerate_bad_pattern root pat e :
  pattern_check E pat = Some e → enumerate E root pat = Raise e.
Proof. intros Hpat. unfold enumerate, Path_glob. by rewrite Hpat. Qed.

End Drivers.

Lemma merge_into_dom (shared part : Dict) (keys : gset string) :
  dom shared = keys → dom part = keys →
  ∃ shared', merge_into shared part = (Ok (), shared') ∧ dom shared' = keys.
Proof.
  intros Hshared Hpart.
  destruct (merge_into_spec shared part) as (shared' & Hrun & Hlookup).
  { by rewrite Hshared, Hpart. }
  exists shared'. split; [done|]. rewrite <- Hshared.
  apply set_eq. intros k. rewrite !elem_of_dom, Hlookup.
  destruct (part !! k); [|done]. by rewrite fmap_is_Some.
Qed.

(** ** Worker count, key set, agreement of the variants *)

(** C2. For worker counts [W1 ≥ 1] and [W2 ≥ 1], and whatever the order in
    which the per-chunk results are merged, both [merge] (process variant)
    and [merge_into] (thread variant) give, under every keyword, the same
    paths up to order for [chunked files W1] and for [chunked files W2], and
    the same paths as one [scan_files] over the whole list; merged in the
    order of the chunks, the result is that very dictionary. *)
Theorem worker_count_invariance E (files : list Path) keywords W1 W2
    (order1 order2 : list (list Path)) :
  1 ≤ W1 → 1 ≤ W2 →
  order1 ≡ₚ chunked files W1 → order2 ≡ₚ chunked files W2 →
  ∃ whole,
    scan_files E files keywords = Ok whole
    ∧ (∃ d1 d2, mp_run E order1 keywords = Printed d1
                ∧ mp_run E order2 keywords = Printed d2
                ∧ same_paths d1 d2 ∧ same_paths d1 whole)
    ∧ (∃ t1 t2, th_run E order1 keywords = Printed t1
                ∧ th_run E order2 keywords = Printed t2
                ∧ same_paths t1 t2 ∧ same_paths t1 whole)
    ∧ mp_run E (chunked files W1) keywords = Printed whole
    ∧ th_run E (chunked files W1) keywords = Printed whole.
Proof.
  intros _ _ Ho1 Ho2.
  destruct (scan_files_records E files keywords) as (whole & Hwhole & Hrec).
  exists whole. split; [done|].
  destruct (mp_run_spec E order1 keywords) as (d1 & Hd1 & Hr1).
  destruct (mp_run_spec E order2 keywords) as (d2 & Hd2 & Hr2).
  destruct (th_run_spec E order1 keywords) as (t1 & Ht1 & Hs1).
  destruct (th_run_spec E order2 keywords) as (t2 & Ht2 & Hs2).
  destruct (mp_run_spec E (chunked files W1) keywords) as (d & Hd & Hr).
  destruct (th_run_spec E (chunked files W1) keywords) as (t & Ht & Hs).
  pose proof (λ k, hits_chunked E k keywords files W1 order1 Ho1) as Hp1.
  pose proof (λ k, hits_chunked E k keywords files W2 order2 Ho2) as Hp2.
  split_and!.
  - exists d1, d2. split_and!; [done|done| |].
    + eapply records_same_paths; [done|done|].
      intros k. by rewrite Hp1, Hp2.
    + eapply records_same_paths; [done|done|]. apply Hp1.
  - exists t1, t2. split_and!; [done|done| |].
    + eapply records_same_paths; [done|done|].
      intros k. by rewrite Hp1, Hp2.
    + eapply records_same_paths; [done|done|]. apply Hp1.
  - rewrite Hd. f_equal. eapply records_eq; [|done].
    eapply records_ext; [|done]. intros k _. simpl.
    by rewrite chunked_concat.
  - rewrite Ht. f_equal. eapply records_eq; [|done].
    eapply records_ext; [|done]. intros k _. simpl.
    by rewrite chunked_concat.
Qed.

Lemma worker_count_invariance_witness :
  1 ≤ 1 ∧ 1 ≤ 3
  ∧ chunked demo_files 1 ≡ₚ chunked demo_files 1
  ∧ reverse (chunked demo_files 3) ≡ₚ chunked demo_files 3
  ∧ ∃ whole,
      scan_files demo_env demo_files ["rose"] = Ok whole
      ∧ (∃ d1 d2,
           mp_run demo_env (chunked demo_files 1) ["rose"] = Printed d1
           ∧ mp_run demo_env (reverse (chunked demo_files 3)) ["rose"]
             = Printed d2
           ∧ same_paths d1 d2 ∧ same_paths d1 whole)
      ∧ (∃ t1 t2,
           th_run demo_env (chunked demo_files 1) ["rose"] = Printed t1
           ∧ th_run demo_env (reverse (chunked demo_files 3)) ["rose"]
             = Printed t2
           ∧ same_paths t1 t2 ∧ same_paths t1 whole)
      ∧ mp_run demo_env (chunked demo_files 1) ["rose"] = Printed whole
      ∧ th_run demo_env (chunked demo_files 1) ["rose"] = Printed whole.
Proof.
  assert (1 ≤ 1) as H1 by lia.
  assert (1 ≤ 3) as H3 by lia.
  assert (chunked demo_files 1 ≡ₚ chunked demo_files 1) as Ho1
    by reflexivity.
  assert (reverse (chunked demo_files 3) ≡ₚ chunked demo_files 3) as Ho2
    by apply reverse_Permutation.
  split; [exact H1|]. split; [exact H3|].
  split; [exact Ho1|]. split; [exact Ho2|].
  exact (worker_count_invariance demo_env demo_files ["rose"] 1 3
           _ _ H1 H3 Ho1 Ho2).
Defined.

Example reversed_arrival_demo :
  mp_run demo_env (reverse (chunked demo_files 3)) ["rose"]
  = Printed {[ "rose" := ["docs/c.txt"; "docs/a.txt"] ]}
  ∧ th_run demo_env (chunked demo_files 3) ["rose"]
    = Printed {[ "rose" := ["docs/a.txt"; "docs/c.txt"] ]}.
Proof. vm_compute. done. Qed.

(** C3. Both drivers always have an outcome.  A run that prints a result
    prints a dictionary whose keys are exactly the requested keywords, with
    an empty list for a keyword that matched nothing; with no enumerated file
    every keyword has the empty list.  A run never blocks, and ends without a
    result only when the enumeration itself raised. *)
Theorem result_keys E a :
  (∃ o, mp_main E a o) ∧ (∃ o, th_main E a o)
  ∧ ∀ o,
      mp_main E a o ∨ th_main E a o →
      match o with
      | Printed d =>
          dom d = list_to_set (arg_keywords a)
          ∧ (∀ k, k ∈ arg_keywords a ↔ is_Some (d !! k))
          ∧ (enumerate E (arg_path a) (arg_glob a) = Ok [] →
             d = empty_result (arg_keywords a)
             ∧ ∀ k, k ∈ arg_keywords a → d !! k = Some [])
      | Uncaught e => enumerate E (arg_path a) (arg_glob a) = Raise e
      | Blocked => False
      end.
Proof.
  split; [apply mp_main_total|]. split; [apply th_main_total|].
  intros o
    [(e & He & ->)|(files & order & d & Hf & Ho & -> & Hd)]%main_inv;
    [done|].
  split_and!.
  - by eapply records_dom.
  - intros k. rewrite (Hd k). case_decide.
    + split; [intros _; eauto | done].
    + split; [done | by intros [? ?]].
  - rewrite Hf. intros [= ->].
    assert (concat order = []) as Hnil by by apply Permutation_nil_r.
    rewrite Hnil in Hd. split.
    + eapply records_eq; [done|apply records_empty_result].
    + intros k Hk. by rewrite (Hd k), decide_True.
Qed.

Lemma result_keys_witness :
  mp_main demo_env (demo_args "empty" ["x"] 4) (mp_run demo_env [] ["x"])
  ∧ mp_run demo_env [] ["x"] = Printed {[ "x" := [] ]}
  ∧ match mp_run demo_env [] ["x"] with
    | Printed d =>
        dom d = list_to_set ["x"]
        ∧ (∀ k, k ∈ ["x"] ↔ is_Some (d !! k))
        ∧ (enumerate demo_env "empty" "**/*.txt" = Ok [] →
           d = empty_result ["x"] ∧ ∀ k, k ∈ ["x"] → d !! k = Some [])
    | Uncaught e => enumerate demo_env "empty" "**/*.txt" = Raise e
    | Blocked => False
    end.
Proof.
  assert (mp_main demo_env (demo_args "empty" ["x"] 4)
            (mp_run demo_env [] ["x"])) as Hrun.
  { apply (mp_main_scan demo_env (demo_args "empty" ["x"] 4) [] []);
      reflexivity. }
  split; [exact Hrun|]. split; [vm_compute; reflexivity|].
  exact (proj2 (proj2 (result_keys demo_env (demo_args "empty" ["x"] 4)))
           _ (or_introl Hrun)).
Defined.

(** C6. On the same directory, keywords and worker count both variants
    have an outcome, and whatever the scheduling of either variant they end
    in the same way: when they print, the two results have the same keys and
    under each key the same paths up to order. *)
Theorem variants_agree E a :
  (∃ o, mp_main E a o) ∧ (∃ o, th_main E a o)
  ∧ ∀ o_mp o_th,
      mp_main E a o_mp → th_main E a o_th →
      match o_mp, o_th with
      | Printed d_mp, Printed d_th => same_paths d_mp d_th
      | Uncaught e_mp, Uncaught e_th => e_mp = e_th
      | _, _ => False
      end.
Proof.
  split; [apply mp_main_total|]. split; [apply th_main_total|].
  intros o_mp o_th
         [(e1 & He1 & ->)|(files1 & order1 & d1 & Hf1 & Ho1 & -> & Hd1)]
           %mp_main_inv
         [(e2 & He2 & ->)|(files2 & order2 & d2 & Hf2 & Ho2 & -> & Hd2)]
           %th_main_inv.
  - congruence.
  - congruence.
  - congruence.
  - assert (files2 = files1) as -> by congruence.
    eapply records_same_paths; [done|done|]. intros k. simpl.
    rewrite (hits_chunked E k _ files1 _ order1 Ho1).
    by rewrite (hits_chunked E k _ files1 _ order2 Ho2).
Qed.

Lemma variants_agree_witness :
  mp_main demo_env (demo_args "docs" ["rose"] 2)
    (mp_run demo_env (reverse (chunked demo_files 2)) ["rose"])
  ∧ th_main demo_env (demo_args "docs" ["rose"] 2)
      (th_run demo_env (chunked demo_files 2) ["rose"])
  ∧ match mp_run demo_env (reverse (chunked demo_files 2)) ["rose"],
          th_run demo_env (chunked demo_files 2) ["rose"] with
    | Printed d_mp, Printed d_th => same_paths d_mp d_th
    | Uncaught e_mp, Uncaught e_th => e_mp = e_th
    | _, _ => False
    end.
Proof.
  assert (mp_main demo_env (demo_args "docs" ["rose"] 2)
            (mp_run demo_env (reverse (chunked demo_files 2)) ["rose"]))
    as Hmp.
  { apply (mp_main_scan demo_env (demo_args "docs" ["rose"] 2) demo_files).
    - vm_compute. reflexivity.
    - apply reverse_Permutation. }
  assert (th_main demo_env (demo_args "docs" ["rose"] 2)
            (th_run demo_env (chunked demo_files 2) ["rose"])) as Hth.
  { apply (th_main_scan demo_env (demo_args "docs" ["rose"] 2) demo_files).
    - vm_compute. reflexivity.
    - reflexivity. }
  split; [exact Hmp|]. split; [exact Hth|].
  exact (proj2 (proj2 (variants_agree demo_env
                         (demo_args "docs" ["rose"] 2))) _ _ Hmp Hth).
Defined.

Example variants_demo :
  mp_run demo_env (reverse (chunked demo_files 2)) ["rose"]
  = Printed {[ "rose" := ["docs/c.txt"; "docs/a.txt"] ]}
  ∧ th_run demo_env (chunked demo_files 2) ["rose"]
    = Printed {[ "rose" := ["docs/a.txt"; "docs/c.txt"] ]}.
Proof. vm_compute. done. Qed.

(** ** A root path that is not a directory *)

(** C8, as the code behaves.  For a root path that does not exist or is not
    a directory ([is_dir] answers [False]) and a pattern that [glob] accepts,
    the enumeration raises nothing and yields no file; either variant then
    runs to a normal end (exit status 0), and every run prints the
    dictionary that maps every requested keyword to the empty list. *)
Theorem bad_root_prints_empty E a :
  is_dir E (arg_path a) = Ok false →
  pattern_check E (arg_glob a) = None →
  enumerate E (arg_path a) (arg_glob a) = Ok []
  ∧ mp_main E a (Printed (empty_result (arg_keywords a)))
  ∧ th_main E a (Printed (empty_result (arg_keywords a)))
  ∧ (∀ o, mp_main E a o ∨ th_main E a o →
          o = Printed (empty_result (arg_keywords a))
          ∧ exit_status o = Some 0)
  ∧ ∀ k, k ∈ arg_keywords a → empty_result (arg_keywords a) !! k = Some [].
Proof.
  intros Hdir Hpat.
  pose proof (enumerate_bad_root E _ (arg_glob a) Hdir Hpat) as Henum.
  split_and!.
  - done.
  - by apply (mp_main_scan E a [] []).
  - by apply (th_main_scan E a [] []).
  - intros o Hrun.
    destruct (main_inv E a o Hrun)
      as [(e & He & ->)|(files & order & d & Hf & Ho & -> & Hd)];
      [congruence|].
    assert (files = []) as -> by congruence.
    assert (concat order = []) as Hnil by by apply Permutation_nil_r.
    rewrite Hnil in Hd.
    assert (d = empty_result (arg_keywords a)) as ->; [|done].
    eapply records_eq; [done|apply records_empty_result].
  - intros k Hk. by rewrite empty_result_lookup, decide_True.
Qed.

Lemma bad_root_prints_empty_witness :
  is_dir demo_env "missing" = Ok false
  ∧ pattern_check demo_env "**/*.txt" = None
  ∧ enumerate demo_env "missing" "**/*.txt" = Ok []
  ∧ mp_main demo_env (demo_args "missing" ["x"] 4)
      (Printed (empty_result ["x"]))
  ∧ th_main demo_env (demo_args "missing" ["x"] 4)
      (Printed (empty_result ["x"]))
  ∧ (∀ o, mp_main demo_env (demo_args "missing" ["x"] 4) o
          ∨ th_main demo_env (demo_args "missing" ["x"] 4) o →
          o = Printed (empty_result ["x"]) ∧ exit_status o = Some 0)
  ∧ ∀ k, k ∈ ["x"] → empty_result ["x"] !! k = Some [].
Proof.
  assert (is_dir demo_env "missing" = Ok false) as Hdir by reflexivity.
  assert (pattern_check demo_env "**/*.txt" = None) as Hpat by reflexivity.
  split; [exact Hdir|]. split; [exact Hpat|].
  exact (bad_root_prints_empty demo_env (demo_args "missing" ["x"] 4)
           Hdir Hpat).
Defined.

(** With a pattern that [glob] rejects the run ends with that exception,
    whatever the root: the empty pattern gives [ValueError]. *)
Lemma bad_pattern_uncaught E a o e :
  pattern_check E (arg_glob a) = Some e →
  mp_main E a o ∨ th_main E a o → o = Uncaught e.
Proof.
  intros Hpat Hrun.
  pose proof (enumerate_bad_pattern E (arg_path a) _ _ Hpat) as Henum.
  destruct (main_inv E a o Hrun)
    as [(e' & He & ->)|(files & order & d & Hf & _)]; congruence.
Qed.

Example empty_pattern_demo :
  enumerate demo_env "missing" "" = Raise ValueError
  ∧ enumerate demo_env "docs" "/*.txt" = Raise NotImplementedError.
Proof. split; reflexivity. Qed.

(** C8, as stated, fails: in [demo_env] nothing is called [missing], yet
    both variants run on that root to a normal end and print
    [{"x": []}]. *)
Lemma bad_root_not_fatal :
  is_dir demo_env "missing" = Ok false
  ∧ enumerate demo_env "missing" "**/*.txt" = Ok []
  ∧ mp_main demo_env (demo_args "missing" ["x"] 4)
      (Printed {[ "x" := [] ]})
  ∧ th_main demo_env (demo_args "missing" ["x"] 4)
      (Printed {[ "x" := [] ]})
  ∧ exit_status (Printed {[ "x" := [] ]}) = Some 0
  ∧ ¬ bad_root_is_fatal mp_main
  ∧ ¬ bad_root_is_fatal th_main.
Proof.
  assert (mp_main demo_env (demo_args "missing" ["x"] 4)
            (Printed {[ "x" := [] ]})) as Hmp.
  { change (Printed {[ "x" := [] ]} : outcome)
      with (mp_run demo_env [] ["x"]).
    apply (mp_main_scan demo_env (demo_args "missing" ["x"] 4) [] []);
      reflexivity. }
  assert (th_main demo_env (demo_args "missing" ["x"] 4)
            (Printed {[ "x" := [] ]})) as Hth.
  { change (Printed {[ "x" := [] ]} : outcome)
      with (th_run demo_env [] ["x"]).
    apply (th_main_scan demo_env (demo_args "missing" ["x"] 4) [] []);
      reflexivity. }
  split_and!; try done.
  - intros Hfatal.
    destruct (Hfatal demo_env (demo_args "missing" ["x"] 4) _ eq_refl Hmp) as [e He]. done.
  - intros Hfatal.
    destruct (Hfatal demo_env (demo_args "missing" ["x"] 4) _ eq_refl Hth) as [e He]. done.
Qed.

(** ** The unguarded index of [merge_into] *)

(** C10. The dictionary shared by the threads starts with exactly the
    requested keywords as keys; every dictionary returned by [scan_files]
    has exactly those keys; a [merge_into] between two dictionaries with
    those keys raises nothing and keeps the keys.  So in a run of the
    threads, whatever the chunks and their order, every worker ends without
    an exception. *)
Theorem merge_into_key_error_unreachable E (order : list (list Path))
    (keywords : list string) :
  dom (empty_result keywords) = list_to_set keywords
  ∧ (∀ chunk, ∃ part, scan_files E chunk keywords = Ok part
                      ∧ dom part = list_to_set keywords)
  ∧ (∀ shared part : Dict,
       dom shared = list_to_set keywords → dom part = list_to_set keywords →
       ∃ shared', merge_into shared part = (Ok (), shared')
                  ∧ dom shared' = list_to_set keywords)
  ∧ ∃ d, run_threads E order keywords (empty_result keywords)
         = (replicate (length order) (Ok ()), d)
         ∧ dom d = list_to_set keywords.
Proof.
  split_and!.
  - apply dom_empty_result.
  - intros chunk.
    destruct (scan_files_records E chunk keywords) as (part & Hpart & Hrec).
    exists part. split; [done|]. by eapply records_dom.
  - intros shared part. apply merge_into_dom.
  - destruct (run_threads_spec E order keywords _ _
                (records_empty_result keywords)) as (d & Hrun & Hd).
    exists d. split; [done|]. by eapply records_dom.
Qed.

Example run_threads_demo :
  run_threads demo_env (reverse (chunked demo_files 3)) ["rose"; "here"]
    (empty_result ["rose"; "here"])
  = ([Ok (); Ok ()],
     {[ "rose" := ["docs/c.txt"; "docs/a.txt"];
        "here" := ["docs/b.txt"] ]}).
Proof. vm_compute. reflexivity. Qed.

(** ** More on the partitioner *)

Lemma chunk_size_one_worker (len n : Z) :
  n ≤ 1 → 0 < len → chunk_size len n = len.
Proof.
  intros Hn Hlen. unfold chunk_size. destruct (decide (n ≤ 0)) as [H0|H0].
  - rewrite Z.div_1_r, Z.mod_1_r. rewrite decide_False by lia. lia.
  - assert (n = 1) as -> by lia.
    rewrite Z.div_1_r, Z.mod_1_r. rewrite decide_False by lia. lia.
Qed.

(** X1. With one worker, or a worker count that is zero or negative (which
    [chunked] replaces by one), a non-empty list is handed out as one single
    chunk: the whole list, in order. *)
Theorem chunked_one_worker {A} (seq : list A) (n : Z) :
  n ≤ 1 → seq ≠ [] → chunked seq n = [seq].
Proof.
  intros Hn Hseq.
  assert (0 < Z.of_nat (length seq)) as Hlen.
  { destruct seq; [done | simpl; lia]. }
  apply list_eq. intros j. rewrite chunked_lookup. cbn zeta.
  rewrite chunk_size_one_worker by done.
  destruct j as [|j]; simpl.
  - rewrite decide_True by lia. rewrite Nat2Z.id. by rewrite take_ge.
  - rewrite decide_False by (rewrite Nat2Z.inj_succ; nia).
    by rewrite lookup_nil.
Qed.

Lemma chunked_one_worker_witness :
  -3 ≤ 1 ∧ demo_files ≠ [] ∧ chunked demo_files (-3) = [demo_files].
Proof.
  assert (-3 ≤ 1) as Hn by lia.
  assert (demo_files ≠ []) as Hne by discriminate.
  split; [exact Hn|]. split; [exact Hne|].
  exact (chunked_one_worker demo_files (-3) Hn Hne).
Defined.

(** X2. With at least as many workers as files, every file is a chunk of its
    own: as many chunks as files, none for the workers in excess. *)
Theorem chunked_many_workers {A} (seq : list A) (n : Z) :
  Z.of_nat (length seq) ≤ n → chunked seq n = (λ x, [x]) <$> seq.
Proof.
  intros Hn. destruct (decide (seq = [])) as [->|Hseq]; [done|].
  assert (0 < Z.of_nat (length seq)) as Hlen.
  { destruct seq; [done | simpl; lia]. }
  assert (chunk_size (Z.of_nat (length seq)) n = 1) as Hk.
  { unfold chunk_size. rewrite decide_False by lia.
    destruct (decide (Z.of_nat (length seq) = n)) as [<-|Hne].
    - rewrite Z.div_same, Z.mod_same by lia. rewrite decide_False by lia.
      lia.
    - rewrite Z.div_small, Z.mod_small by lia. rewrite decide_True by lia.
      lia. }
  apply list_eq. intros j.
  rewrite chunked_lookup, list_lookup_fmap. cbn zeta. rewrite Hk.
  destruct (seq !! j) as [x|] eqn:Hj; simpl.
  - apply lookup_lt_Some in Hj as Hlt. rewrite decide_True by lia.
    f_equal. replace (j * Z.to_nat 1)%nat with j by lia.
    by rewrite (drop_S _ _ _ Hj).
  - apply lookup_ge_None in Hj. by rewrite decide_False by lia.
Qed.

Lemma chunked_many_workers_witness :
  Z.of_nat (length demo_files) ≤ 8
  ∧ chunked demo_files 8 = (λ x, [x]) <$> demo_files.
Proof.
  assert (Z.of_nat (length demo_files) ≤ 8) as Hn by (simpl; lia).
  split; [exact Hn|]. exact (chunked_many_workers demo_files 8 Hn).
Defined.

(** X3. The number of chunks, that is of workers started, is the ceiling of
    [len / k] for the chunk size [k]; it can be smaller than the requested
    worker count even when there are more files than workers. *)
Theorem chunked_count {A} (seq : list A) (n : Z) :
  let len := Z.of_nat (length seq) in
  let k := chunk_size len n in
  Z.of_nat (length (chunked seq n)) = (len + k - 1) `div` k.
Proof.
  intros len k.
  pose proof (chunk_size_pos len n) as Hk. fold k in Hk.
  destruct (chunked_length seq n) as [Hlo Hhi]. fold len k in Hlo, Hhi.
  apply Z.div_unique
    with (r := len + k - 1 - Z.of_nat (length (chunked seq n)) * k).
  - left. destruct (decide (len = 0)) as [H0|H0].
    + assert (seq = []) as Hnil by (apply length_zero_iff_nil; lia).
      subst seq. simpl in *. lia.
    + lia.
  - lia.
Qed.

Example chunked_count_9_4 :
  length (chunked (replicate 9 "f") 4) = 3%nat.
Proof. reflexivity. Qed.

(** ** More on the scanner *)

Lemma count_kw_NoDup k (keywords : list string) :
  NoDup keywords → k ∈ keywords → count_kw k keywords = 1%nat.
Proof.
  unfold count_kw. induction 1 as [|kw keywords Hnotin Hnd IH].
  - by intros ?%elem_of_nil.
  - intros [->|Hin]%elem_of_cons.
    + rewrite filter_cons_True by done. simpl. f_equal.
      destruct (filter (λ kw', kw' = kw) keywords) as [|x l] eqn:Hf; [done|].
      assert (x ∈ filter (λ kw', kw' = kw) keywords) as Hx
        by (rewrite Hf; left).
      apply list_elem_of_filter in Hx as [-> Hx]. done.
    + rewrite filter_cons_False by (intros ->; done). by apply IH.
Qed.

Lemma hits_once E k (keywords : list string) (files : list Path) :
  count_kw k keywords = 1%nat →
  hits E k keywords files = filter (λ p, matches E k p = true) files.
Proof.
  intros Hc. unfold hits. rewrite Hc.
  induction files as [|p files IH]; [done|].
  rewrite bind_cons, IH. destruct (matches E k p) eqn:Hm.
  - by rewrite filter_cons_True.
  - rewrite filter_cons_False; [done|]. congruence.
Qed.

(** X4. Scanning a list of files in two parts and merging the two results
    with [merge] gives exactly the result of scanning the whole list. *)
Theorem scan_files_app E (files1 files2 : list Path) (keywords : list string) :
  ∃ d1 d2,
    scan_files E files1 keywords = Ok d1
    ∧ scan_files E files2 keywords = Ok d2
    ∧ scan_files E (files1 ++ files2) keywords = Ok (merge d1 d2).
Proof.
  destruct (scan_files_records E files1 keywords) as (d1 & Hd1 & Hr1).
  destruct (scan_files_records E files2 keywords) as (d2 & Hd2 & Hr2).
  destruct (scan_files_records E (files1 ++ files2) keywords)
    as (d & Hd & Hr).
  exists d1, d2. split_and!; [done|done|].
  rewrite Hd. f_equal. eapply records_eq; [done|].
  eapply records_ext; [|by eapply records_merge].
  intros k _. simpl. by rewrite hits_app.
Qed.

(** X5. When the keywords are pairwise distinct, the list recorded under a
    keyword is the list of scanned files filtered by "readable and
    matching": the matching files in scan order, each as often as it occurs
    in the scanned list. *)
Theorem scan_files_keeps_order E (files : list Path) (keywords : list string)
    k :
  NoDup keywords → k ∈ keywords →
  ∃ d, scan_files E files keywords = Ok d
       ∧ d !! k = Some (filter (λ p, matches E k p = true) files)
       ∧ (NoDup files → ∀ l, d !! k = Some l → NoDup l).
Proof.
  intros Hnd Hk.
  destruct (scan_files_records E files keywords) as (d & Hd & Hr).
  assert (d !! k = Some (filter (λ p, matches E k p = true) files)) as Hl.
  { rewrite (Hr k), decide_True by done.
    by rewrite hits_once by by apply count_kw_NoDup. }
  exists d. split_and!; [done|done|].
  intros Hfiles l. rewrite Hl. intros [= <-]. by apply NoDup_filter.
Qed.

Lemma scan_files_keeps_order_witness :
  NoDup ["rose"; "here"] ∧ "here" ∈ ["rose"; "here"]
  ∧ ∃ d, scan_files demo_env demo_files ["rose"; "here"] = Ok d
         ∧ d !! "here"
           = Some (filter (λ p, matches demo_env "here" p = true) demo_files)
         ∧ (NoDup demo_files → ∀ l, d !! "here" = Some l → NoDup l).
Proof.
  assert (NoDup ["rose"; "here"]) as Hnd.
  { apply NoDup_cons. split.
    - intros Hin%list_elem_of_singleton. discriminate Hin.
    - apply NoDup_singleton. }
  assert ("here" ∈ ["rose"; "here"]) as Hk by (right; left).
  split; [exact Hnd|]. split; [exact Hk|].
  exact (scan_files_keeps_order demo_env demo_files _ _ Hnd Hk).
Defined.

(** X6. Keywords are keys in their original casing: two distinct keywords
    with the same lower-cased form are two keys of the result, and (in a list
    of pairwise distinct keywords) both hold the same list of paths. *)
Theorem scan_files_case_variants E (files : list Path)
    (keywords : list string) k1 k2 :
  NoDup keywords → k1 ∈ keywords → k2 ∈ keywords →
  lower E k1 = lower E k2 →
  ∃ d l, scan_files E files keywords = Ok d
         ∧ d !! k1 = Some l ∧ d !! k2 = Some l.
Proof.
  intros Hnd Hk1 Hk2 Hlow.
  destruct (scan_files_records E files keywords) as (d & Hd & Hr).
  exists d, (hits E k1 keywords files). split_and!; [done| |].
  - by rewrite (Hr k1), decide_True.
  - rewrite (Hr k2), decide_True by done. f_equal.
    unfold hits, matches. rewrite Hlow.
    by rewrite !count_kw_NoDup.
Qed.

Lemma scan_files_case_variants_witness :
  NoDup ["Rose"; "rOSE"] ∧ "Rose" ∈ ["Rose"; "rOSE"]
  ∧ "rOSE" ∈ ["Rose"; "rOSE"]
  ∧ lower demo_env "Rose" = lower demo_env "rOSE"
  ∧ ∃ d l, scan_files demo_env demo_files ["Rose"; "rOSE"] = Ok d
           ∧ d !! "Rose" = Some l ∧ d !! "rOSE" = Some l.
Proof.
  assert (NoDup ["Rose"; "rOSE"]) as Hnd.
  { apply NoDup_cons. split.
    - intros Hin%list_elem_of_singleton. discriminate Hin.
    - apply NoDup_singleton. }
  assert ("Rose" ∈ ["Rose"; "rOSE"]) as Hk1 by left.
  assert ("rOSE" ∈ ["Rose"; "rOSE"]) as Hk2 by (right; left).
  assert (lower demo_env "Rose" = lower demo_env "rOSE") as Hlow
    by reflexivity.
  split; [exact Hnd|]. split; [exact Hk1|]. split; [exact Hk2|].
  split; [exact Hlow|].
  exact (scan_files_case_variants demo_env demo_files _ _ _
           Hnd Hk1 Hk2 Hlow).
Defined.

(** X7. A keyword whose lower-cased form is the empty string matches every
    file that can be read: the empty string is a substring of any content. *)
Theorem scan_files_empty_keyword E (files : list Path)
    (keywords : list string) k :
  k ∈ keywords → lower E k = "" →
  ∃ d, scan_files E files keywords = Ok d
       ∧ ∀ f, listed d k f
              ↔ f ∈ files ∧ ∃ content, read_text E f = Ok content.
Proof.
  intros Hk Hlow.
  destruct (scan_files_records E files keywords) as (d & Hd & Hr).
  exists d. split; [done|]. intros f.
  rewrite (records_listed _ _ _ _ _ Hr), elem_of_hits.
  unfold readable_match. rewrite Hlow. split.
  - intros (_ & Hf & _ & content & Hread & _). eauto.
  - intros (Hf & content & Hread). split_and!; [done..|].
    exists content. split; [done|]. by exists "", (lower E content).
Qed.

Lemma scan_files_empty_keyword_witness :
  "" ∈ ["rose"; ""] ∧ lower demo_env "" = ""
  ∧ ∃ d, scan_files demo_env demo_files ["rose"; ""] = Ok d
         ∧ ∀ f, listed d "" f
                ↔ f ∈ demo_files ∧ ∃ content, read_text demo_env f = Ok content.
Proof.
  assert ("" ∈ ["rose"; ""]) as Hk by (right; left).
  assert (lower demo_env "" = "") as Hlow by reflexivity.
  split; [exact Hk|]. split; [exact Hlow|].
  exact (scan_files_empty_keyword demo_env demo_files _ _ Hk Hlow).
Defined.

Example scan_empty_keyword_demo :
  scan_files demo_env demo_files ["rose"; ""]
  = Ok {[ "rose" := ["docs/a.txt"; "docs/c.txt"];
          "" := ["docs/a.txt"; "docs/b.txt"; "docs/c.txt"] ]}.
Proof. vm_compute. reflexivity. Qed.

(** ** More on the aggregators *)

(** X8. [merge] never raises and never drops a key: the keys of the result
    are those of both arguments, a key that only [b] has is created with
    [b]'s list (the [setdefault]).  Merging with an empty dictionary changes
    nothing, and merging is associative: the merged result depends on the
    order of the partial results, not on how the merges are grouped. *)
Theorem merge_monoid (a b c : Dict) :
  dom (merge a b) = dom a ∪ dom b
  ∧ (∀ k v, a !! k = None → b !! k = Some v → merge a b !! k = Some v)
  ∧ merge a ∅ = a
  ∧ merge ∅ b = b
  ∧ merge (merge a b) c = merge a (merge b c).
Proof.
  split_and!.
  - apply set_eq. intros k.
    rewrite elem_of_union, !elem_of_dom, merge_lookup.
    rewrite <- !not_eq_None_Some.
    destruct (a !! k), (b !! k); simpl; split; try tauto; try done.
    intros _. by left.
  - intros k v Ha Hb. by rewrite merge_lookup, Ha, Hb.
  - apply map_eq. intros k. by rewrite merge_lookup, lookup_empty.
  - apply map_eq. intros k. rewrite merge_lookup, lookup_empty.
    by destruct (b !! k).
  - apply map_eq. intros k. rewrite !merge_lookup.
    destruct (a !! k), (b !! k), (c !! k); simpl; try done;
      by rewrite ?app_assoc.
Qed.

Lemma merge_items_raise (items : list (string * list Path)) (dst : Dict) :
  ¬ (∀ k, k ∈ items.*1 → is_Some (dst !! k)) →
  ∃ k dst', merge_items items dst = (Raise (KeyError k), dst')
            ∧ k ∈ items.*1 ∧ dst !! k = None ∧ dom dst' = dom dst.
Proof.
  revert dst. induction items as [|[k v] items IH]; intros dst Hmiss.
  - exfalso. apply Hmiss. by intros k ?%elem_of_nil.
  - cbn [merge_items]. unfold extend_at.
    destruct (dst !! k) as [l|] eqn:Hk.
    + destruct (IH (<[k := l ++ v]> dst)) as (k' & dst' & Hrun & Hin & Hno & Hd).
      { intros Hall. apply Hmiss. intros k' [->|Hin]%elem_of_cons; [eauto|].
        specialize (Hall k' Hin).
        destruct (decide (k = k')) as [->|Hne]; [eauto|].
        by rewrite lookup_insert_ne in Hall. }
      exists k', dst'. split_and!.
      * done.
      * by right.
      * destruct (decide (k = k')) as [->|Hne].
        -- by rewrite lookup_insert_eq in Hno.
        -- by rewrite lookup_insert_ne in Hno.
      * rewrite Hd, dom_insert_L.
        assert (k ∈ dom dst) as Hkd by (apply elem_of_dom; eauto).
        apply set_eq. intros x. rewrite elem_of_union, elem_of_singleton.
        split; [by intros [->|?] | by right].
    + exists k, dst. split_and!; [done|by left|done|done].
Qed.

(** X9. [merge_into] succeeds exactly when every key of [src] is a key of
    [dst], and then it computes what [merge] computes.  Otherwise it raises
    [KeyError] for a key of [src] that [dst] lacks, and the dictionary it
    leaves behind still has the keys of [dst]: no key is ever added. *)
Theorem merge_into_vs_merge (dst src : Dict) :
  (dom src ⊆ dom dst → merge_into dst src = (Ok (), merge dst src))
  ∧ (¬ (dom src ⊆ dom dst) →
     ∃ k dst', merge_into dst src = (Raise (KeyError k), dst')
               ∧ k ∈ dom src ∧ (k ∉ dom dst) ∧ dom dst' = dom dst).
Proof.
  split.
  - intros Hdom.
    destruct (merge_into_spec dst src Hdom) as (dst' & -> & Hlookup).
    f_equal. apply map_eq. intros k. rewrite Hlookup, merge_lookup.
    destruct (src !! k) as [v|] eqn:Hsrc; [|done].
    assert (is_Some (dst !! k)) as [l ->]; [|done].
    apply elem_of_dom, Hdom, elem_of_dom. eauto.
  - intros Hdom. unfold merge_into.
    destruct (merge_items_raise (map_to_list src) dst)
      as (k & dst' & Hrun & Hin & Hno & Hd).
    { intros Hall. apply Hdom. intros k [v Hv]%elem_of_dom.
      apply elem_of_dom, Hall, list_elem_of_fmap.
      exists (k, v). split; [done|]. by apply elem_of_map_to_list. }
    exists k, dst'. split_and!; [done| |by apply not_elem_of_dom|done].
    apply list_elem_of_fmap in Hin as [[k' v] [-> Hin]].
    apply elem_of_map_to_list in Hin. apply elem_of_dom. eauto.
Qed.

Lemma th_run_mp_run E (order : list (list Path)) (keywords : list string) :
  th_run E order keywords = mp_run E order keywords.
Proof.
  destruct (mp_run_spec E order keywords) as (d & -> & Hd).
  destruct (th_run_spec E order keywords) as (t & -> & Ht).
  f_equal. by eapply records_eq.
Qed.

(** X10. Merged in the same order, the two variants produce the very same
    dictionary: the lists agree in order, not only as sets. *)
Theorem same_order_same_result E (order : list (list Path))
    (keywords : list string) :
  th_run E order keywords = mp_run E order keywords
  ∧ ∃ d, mp_run E order keywords = Printed d.
Proof.
  split; [apply th_run_mp_run|].
  destruct (mp_run_spec E order keywords) as (d & -> & Hd). eauto.
Qed.

Lemma scan_list_hits E (chunk : list Path) (keywords : list string) k :
  k ∈ keywords → scan_list E chunk keywords k = hits E k keywords chunk.
Proof.
  intros Hk. unfold scan_list.
  destruct (scan_files_records E chunk keywords) as (d & -> & Hd).
  by rewrite (Hd k), decide_True.
Qed.

(** X11. Under every requested keyword the final list is the concatenation
    of the lists of the chunks, in the order in which the chunks were
    merged; inside a chunk the scan order is kept. *)
Theorem result_is_concatenation E (order : list (list Path))
    (keywords : list string) k :
  k ∈ keywords →
  ∃ d, mp_run E order keywords = Printed d
       ∧ th_run E order keywords = Printed d
       ∧ d !! k = Some (order ≫= λ chunk, scan_list E chunk keywords k).
Proof.
  intros Hk.
  destruct (mp_run_spec E order keywords) as (d & Hrun & Hd).
  exists d. split; [done|]. split; [by rewrite th_run_mp_run|].
  rewrite (Hd k), decide_True by done. f_equal. clear Hrun Hd.
  induction order as [|chunk order IH]; [done|].
  cbn [concat]. by rewrite hits_app, bind_cons, IH, scan_list_hits.
Qed.

Lemma result_is_concatenation_witness :
  "rose" ∈ ["rose"]
  ∧ ∃ d, mp_run demo_env (reverse (chunked demo_files 2)) ["rose"]
         = Printed d
         ∧ th_run demo_env (reverse (chunked demo_files 2)) ["rose"]
           = Printed d
         ∧ d !! "rose"
           = Some (reverse (chunked demo_files 2)
                     ≫= λ chunk, scan_list demo_env chunk ["rose"] "rose").
Proof.
  assert ("rose" ∈ ["rose"]) as Hk by left.
  split; [exact Hk|].
  exact (result_is_concatenation demo_env _ _ _ Hk).
Defined.

(** X12. With a single worker the run is sequential and has one possible
    outcome: when the effective worker count is at most one (for the thread
    variant also zero or negative), every run prints exactly the result of
    one scan over the whole sorted file list. *)
Theorem one_worker_deterministic E a (files : list Path) whole o :
  enumerate E (arg_path a) (arg_glob a) = Ok files →
  scan_files E files (arg_keywords a) = Ok whole →
  (mp_main E a o ∧ mp_workers E a ≤ 1) ∨ (th_main E a o ∧ arg_workers a ≤ 1) →
  o = Printed whole.
Proof.
  intros Hfiles Hwhole Hrun.
  assert (∃ order n, n ≤ 1 ∧ order ≡ₚ chunked files n
                     ∧ o = mp_run E order (arg_keywords a))
    as (order & n & Hn & Horder & ->).
  { destruct Hrun as [[Hmain Hn]|[Hmain Hn]];
      destruct Hmain as [e He|files' order He Horder]; try congruence.
    - assert (files' = files) as -> by congruence. eauto.
    - assert (files' = files) as -> by congruence.
      rewrite th_run_mp_run. eauto. }
  destruct (mp_run_spec E order (arg_keywords a)) as (d & -> & Hd).
  destruct (scan_files_records E files (arg_keywords a)) as (w & Hw & Hrec).
  assert (w = whole) as -> by congruence.
  f_equal. eapply records_eq; [done|].
  eapply records_ext; [|done]. intros k _. simpl. f_equal.
  assert (order = chunked files n) as ->; [|by rewrite chunked_concat].
  assert (length (chunked files n) ≤ 1)%nat as Hshort.
  { destruct (decide (files = [])) as [->|Hne]; [simpl; lia|].
    assert (0 < Z.of_nat (length files)) as Hlen.
    { destruct files; [done | simpl; lia]. }
    destruct (chunked_length files n) as [_ Hhi]. cbn zeta in Hhi.
    rewrite chunk_size_one_worker in Hhi by done. nia. }
  destruct (chunked files n) as [|c [|c' rest]].
  - by apply Permutation_nil_r.
  - by apply Permutation_singleton_r.
  - simpl in Hshort. lia.
Qed.

Lemma one_worker_deterministic_witness :
  enumerate demo_env "docs" "**/*.txt" = Ok demo_files
  ∧ scan_files demo_env demo_files ["rose"]
    = Ok {[ "rose" := ["docs/a.txt"; "docs/c.txt"] ]}
  ∧ ((mp_main demo_env (demo_args "docs" ["rose"] (-2))
        (mp_run demo_env [demo_files] ["rose"])
      ∧ mp_workers demo_env (demo_args "docs" ["rose"] (-2)) ≤ 1)
     ∨ (th_main demo_env (demo_args "docs" ["rose"] (-2))
          (mp_run demo_env [demo_files] ["rose"])
        ∧ arg_workers (demo_args "docs" ["rose"] (-2)) ≤ 1))
  ∧ mp_run demo_env [demo_files] ["rose"]
    = Printed {[ "rose" := ["docs/a.txt"; "docs/c.txt"] ]}.
Proof.
  assert (enumerate demo_env "docs" "**/*.txt" = Ok demo_files) as Hf
    by (vm_compute; reflexivity).
  assert (scan_files demo_env demo_files ["rose"]
          = Ok {[ "rose" := ["docs/a.txt"; "docs/c.txt"] ]}) as Hw
    by (vm_compute; reflexivity).
  assert (mp_main demo_env (demo_args "docs" ["rose"] (-2))
            (mp_run demo_env [demo_files] ["rose"])) as Hmp.
  { apply (mp_main_scan demo_env (demo_args "docs" ["rose"] (-2))
             demo_files).
    - exact Hf.
    - reflexivity. }
  assert (mp_workers demo_env (demo_args "docs" ["rose"] (-2)) ≤ 1) as Hn
    by (vm_compute; discriminate).
  split; [exact Hf|]. split; [exact Hw|].
  split; [left; split; [exact Hmp | exact Hn]|].
  exact (one_worker_deterministic demo_env
           (demo_args "docs" ["rose"] (-2)) demo_files _ _ Hf Hw
           (or_introl (conj Hmp Hn))).
Defined.

(** ** The generator of test files *)

Section GeneratorFacts.
Import Generator.
Variable L : PyLib.
Implicit Types (g : rng L) (words keywords vocab : list string).

Lemma choice_ok {A} (seq : list A) g :
  seq ≠ [] → ∃ x g', choice L seq g = Done (x, g') ∧ x ∈ seq.
Proof.
  intros Hne. unfold choice. destruct seq as [|x0 seq0] eqn:Hseq; [done|].
  rewrite <- Hseq in *.
  pose proof (randbelow_lt L (length seq) g) as Hlt.
  destruct (randbelow L (length seq) g) as [i g'] eqn:Hdraw. simpl in Hlt.
  destruct (lookup_lt_is_Some_2 seq i) as [x Hx].
  { apply Hlt. rewrite Hseq. simpl. lia. }
  rewrite Hx. exists x, g'. split; [done|].
  by eapply list_elem_of_lookup_2.
Qed.

Lemma random_words_ok count vocab g :
  vocab ≠ [] →
  ∃ ws g', random_words L count vocab g = Done (ws, g')
           ∧ length ws = count ∧ Forall (λ w, w ∈ vocab) ws.
Proof.
  intros Hne. revert g. induction count as [|count IH]; intros g.
  - exists [], g. by split_and!.
  - cbn [random_words].
    destruct (choice_ok vocab g Hne) as (w & g1 & -> & Hw). cbn [abind].
    destruct (IH g1) as (ws & g2 & Hws & Hlen & Hall).
    cbn [fst snd]. rewrite Hws. cbn [abind fst snd].
    exists (w :: ws), g2. split_and!; [done|by simpl; f_equal|by constructor].
Qed.

(** X13. [random_text] returns [num_words] words (none for a count that is
    zero or negative), all taken from the vocabulary; with an empty
    vocabulary and a positive count it raises [IndexError]. *)
Theorem random_text_words (num_words : Z) vocab g :
  (vocab ≠ [] →
   ∃ ws g', random_text L num_words vocab g = Done (ws, g')
            ∧ Z.of_nat (length ws) = Z.max 0 num_words
            ∧ Forall (λ w, w ∈ vocab) ws)
  ∧ (num_words ≤ 0 → random_text L num_words vocab g = Done ([], g))
  ∧ (0 < num_words → random_text L num_words [] g = Fail IndexError).
Proof.
  unfold random_text. split_and!.
  - intros Hne.
    destruct (random_words_ok (Z.to_nat num_words) vocab g Hne)
      as (ws & g' & Hws & Hlen & Hall).
    exists ws, g'. split_and!; [done|lia|done].
  - intros Hn. by replace (Z.to_nat num_words) with 0%nat by lia.
  - intros Hn. destruct (Z.to_nat num_words) as [|n] eqn:Hc; [lia|done].
Qed.

Lemma mutate_case_variant kw g :
  case_variant L kw (mutate_case L kw g).1.
Proof.
  unfold mutate_case, case_variant. destruct (random L g) as [r g'].
  destruct (flt L r (f0_7 L)); [by left|].
  destruct (flt L r (f0_85 L)); [right; by left | right; by right].
Qed.

Lemma sprinkle_loop_ok words keywords (density : float L)
    (acc : list string) g :
  keywords ≠ [] →
  ∃ ext g',
    sprinkle_loop L words keywords density acc g = Done (acc ++ ext, g')
    ∧ words `sublist_of` ext
    ∧ (length ext ≤ 3 * length words)%nat
    ∧ Forall (generated_word L words keywords) ext.
Proof.
  intros Hne. revert acc g.
  induction words as [|w rest IH]; intros acc g.
  - exists [], g. rewrite app_nil_r. by split_and!.
  - assert (∀ acc' g1 mid,
              Forall (λ x, ∃ kw, kw ∈ keywords ∧ case_variant L kw x) mid →
              (length mid ≤ 2)%nat →
              acc' = acc ++ w :: mid →
              ∃ ext g',
                sprinkle_loop L rest keywords density acc' g1
                = Done (acc ++ ext, g')
                ∧ w :: rest `sublist_of` ext
                ∧ (length ext ≤ 3 * length (w :: rest))%nat
                ∧ Forall (generated_word L (w :: rest) keywords) ext)
      as Hcont.
    { intros acc' g1 mid Hmid Hlen ->.
      destruct (IH (acc ++ w :: mid) g1) as (ext & g' & Hrun & Hsub & Hl & Hall).
      exists (w :: mid ++ ext), g'. split_and!.
      - rewrite Hrun. f_equal. f_equal.
        by rewrite <- !app_assoc, <- app_comm_cons.
      - apply sublist_skip. by apply sublist_inserts_l.
      - simpl in *. rewrite length_app. lia.
      - constructor; [left; by left|]. apply Forall_app. split.
        + eapply Forall_impl; [done|]. intros x Hx. by right.
        + eapply Forall_impl; [done|]. intros x [Hx|Hx]; [|by right].
          left. by right. }
    cbn [sprinkle_loop].
    destruct (random L g) as [r g1].
    destruct (flt L r density).
    + destruct (choice_ok keywords g1 Hne) as (c & g2 & -> & Hc).
      cbn [abind fst snd].
      pose proof (mutate_case_variant c g2) as Hv.
      destruct (mutate_case L c g2) as [kw g3]. cbn [fst] in Hv.
      destruct (random L g3) as [r2 g4].
      destruct (flt L r2 (f0_2 L)).
      * destruct (choice_ok keywords g4 Hne) as (c2 & g5 & -> & Hc2).
        cbn [abind fst snd].
        pose proof (mutate_case_variant c2 g5) as Hv2.
        destruct (mutate_case L c2 g5) as [kw2 g6]. cbn [fst] in Hv2.
        apply (Hcont _ g6 [kw; kw2]).
        -- repeat constructor; eauto.
        -- simpl; lia.
        -- by rewrite <- !app_assoc.
      * apply (Hcont _ g4 [kw]).
        -- repeat constructor; eauto.
        -- simpl; lia.
        -- by rewrite <- !app_assoc.
    + apply (Hcont _ g1 []); [constructor | simpl; lia | done].
Qed.

Lemma sprinkle_keywords_ok words keywords (density : float L) g :
  ∃ out g',
    sprinkle_keywords L words keywords density g = Done (out, g')
    ∧ words `sublist_of` out
    ∧ (length out ≤ 3 * length words)%nat
    ∧ Forall (generated_word L words keywords) out.
Proof.
  unfold sprinkle_keywords.
  destruct (bool_decide (keywords = []) || fle L density (f0 L)) eqn:Hguard.
  - exists words, g. split_and!; [done|done|lia|].
    apply Forall_forall. intros w Hw. by left.
  - apply orb_false_iff in Hguard as [Hne%bool_decide_eq_false _].
    destruct (sprinkle_loop_ok words keywords density [] g Hne)
      as (ext & g' & Hrun & Hrest).
    exists ext, g'. by split.
Qed.

(** X14. [sprinkle_keywords] never raises.  The words it was given are all
    kept, in their order; what it inserts are keywords in lower, upper or
    title case, at most two after each word, so the result is at most three
    times as long.  With no keyword, or a density that is not positive, the
    words come back unchanged and no random number is drawn. *)
Theorem sprinkle_keywords_keeps_words words keywords (density : float L) g :
  (∃ out g',
     sprinkle_keywords L words keywords density g = Done (out, g')
     ∧ words `sublist_of` out
     ∧ (length out ≤ 3 * length words)%nat
     ∧ Forall (generated_word L words keywords) out)
  ∧ (keywords = [] ∨ fle L density (f0 L) = true →
     sprinkle_keywords L words keywords density g = Done (words, g)).
Proof.
  split; [apply sprinkle_keywords_ok|].
  intros Hnone. unfold sprinkle_keywords.
  destruct Hnone as [-> | ->]; [done|]. by rewrite orb_true_r.
Qed.

Lemma string_length_app (s t : string) :
  String.length (s +:+ t) = (String.length s + String.length t)%nat.
Proof.
  induction s as [|a s IH]; [done|].
  change (String a s +:+ t) with (String a (s +:+ t)). simpl. by rewrite IH.
Qed.

Lemma string_app_inj_r (s1 s2 t : string) : s1 +:+ t = s2 +:+ t → s1 = s2.
Proof.
  revert s2. induction s1 as [|a s1 IH]; intros s2 Heq.
  - destruct s2 as [|b s2]; [done|].
    apply (f_equal String.length) in Heq.
    rewrite !string_length_app in Heq. simpl in Heq. lia.
  - destruct s2 as [|b s2].
    + apply (f_equal String.length) in Heq.
      rewrite !string_length_app in Heq. simpl in Heq. lia.
    + change (String a (s1 +:+ t) = String b (s2 +:+ t)) in Heq.
      injection Heq as -> Heq. f_equal. by apply IH.
Qed.

(** Read back as a decimal number, a zero-padded number is the number. *)
Lemma format_d_read (width n : nat) :
  option_map Nat.of_uint
    (DecimalString.NilEmpty.uint_of_string (format_d width n))
  = Some n.
Proof.
  unfold format_d.
  induction (width - String.length (decimal n))%nat as [|k IH].
  - change (zeros 0 +:+ decimal n) with (decimal n). unfold decimal.
    rewrite DecimalString.NilEmpty.usu. cbn [option_map].
    by rewrite DecimalNat.Unsigned.of_to.
  - change (zeros (S k) +:+ decimal n)
      with (String "0" (zeros k +:+ decimal n)).
    cbn [DecimalString.NilEmpty.uint_of_string].
    destruct (DecimalString.NilEmpty.uint_of_string (zeros k +:+ decimal n))
      as [d|]; [|done].
    simpl in IH. injection IH as IH. simpl. f_equal. exact IH.
Qed.

Lemma format_d_inj (width i j : nat) : format_d width i = format_d width j → i = j.
Proof.
  intros Heq. pose proof (format_d_read width i) as Hi.
  rewrite Heq, format_d_read in Hi. congruence.
Qed.

(** X15. The names of the generated files and of the shards determine their
    index: two files with different indices never get the same name, however
    large the indices are (beyond the padding width the number just gets
    longer). *)
Theorem names_determine_index (i j : nat) :
  (doc_name i = doc_name j → i = j)
  ∧ (shard_name i = shard_name j → i = j)
  ∧ (5 ≤ String.length (format_d 5 i))%nat.
Proof.
  split_and!.
  - unfold doc_name. intros Heq.
    apply (inj (String.app "doc_")) in Heq.
    apply string_app_inj_r in Heq. by eapply format_d_inj.
  - unfold shard_name. intros Heq.
    apply (inj (String.app "shard_")) in Heq. by eapply format_d_inj.
  - unfold format_d. rewrite string_length_app.
    assert (∀ k, String.length (zeros k) = k) as Hz.
    { induction k as [|k IH]; [done|]. simpl. by rewrite IH. }
    rewrite Hz. lia.
Qed.

Lemma basic_vocab_nonempty : BASIC_VOCAB ≠ [].
Proof. discriminate. Qed.

Lemma generated_word_mono vocab words keywords w :
  Forall (λ x, x ∈ vocab) words →
  generated_word L words keywords w → generated_word L vocab keywords w.
Proof.
  intros Hall [Hw|Hw]; [|by right]. left.
  by eapply (proj1 (Forall_forall _ _) Hall).
Qed.

Lemma file_words_ok (min_words max_words : Z) keywords g :
  5 ≤ Z.max min_words max_words →
  ∃ ws g', file_words L min_words max_words keywords g = Done (ws, g')
           ∧ good_words L min_words max_words keywords ws.
Proof.
  intros Hmax. unfold file_words, randint.
  rewrite decide_True by lia.
  pose proof (randrange_bounds L (Z.max 5 min_words)
                (Z.max min_words max_words) g ltac:(lia)) as Hn.
  destruct (randrange L _ _ g) as [n g1]. cbn [abind fst snd] in *.
  unfold random_text.
  destruct (random_words_ok (Z.to_nat n) BASIC_VOCAB g1 basic_vocab_nonempty)
    as (words & g2 & -> & Hlen & Hvocab).
  cbn [abind fst snd].
  destruct (random L g2) as [r g3].
  destruct (flt L r (f0_75 L)).
  - destruct (uniform L (f0_01 L) (f0_05 L) g3) as [density g4].
    destruct (sprinkle_keywords_ok words keywords density g4)
      as (out & g5 & -> & Hsub & Hout & Hall).
    exists out, g5. split; [done|]. split.
    + apply sublist_length in Hsub. lia.
    + eapply Forall_impl; [done|]. intros w. by apply generated_word_mono.
  - exists words, g3. split; [done|]. split; [lia|].
    eapply Forall_impl; [done|]. intros w Hw. by left.
Qed.

Lemma file_words_fail (min_words max_words : Z) keywords g :
  Z.max min_words max_words < 5 →
  file_words L min_words max_words keywords g = Fail ValueError.
Proof.
  intros Hmax. unfold file_words, randint. by rewrite decide_False by lia.
Qed.

Lemma shard_paths_lookup (out_dir : Path) (subdirs : Z) (i : nat) :
  (i < Z.to_nat (Z.max 1 subdirs))%nat →
  shard_paths L out_dir subdirs !! i
  = Some (joinpath L out_dir (shard_name i)).
Proof.
  intros Hi. unfold shard_paths.
  by rewrite list_lookup_fmap, lookup_seq_lt.
Qed.

Lemma shard_paths_length (out_dir : Path) (subdirs : Z) :
  length (shard_paths L out_dir subdirs) = Z.to_nat (Z.max 1 subdirs).
Proof. unfold shard_paths. by rewrite length_fmap, length_seq. Qed.

(** The path of the file number [idx]: the shards are used in turn. *)
Lemma doc_path_ok (out_dir : Path) (subdirs : Z) (idx : nat) :
  doc_path L (shard_paths L out_dir subdirs) idx
  = Done (joinpath L
            (joinpath L out_dir
               (shard_name (idx mod Z.to_nat (Z.max 1 subdirs))))
            (doc_name idx)).
Proof.
  unfold doc_path. rewrite shard_paths_length.
  rewrite decide_False by lia.
  rewrite shard_paths_lookup; [done|].
  apply Nat.mod_upper_bound. lia.
Qed.

Section AnyFiles.
Variable F : Files.

Lemma make_dirs_fail dirs (disk : fs F) e :
  make_dirs F dirs disk = Fail e → ∃ e', e = FsError e'.
Proof.
  revert disk. induction dirs as [|d dirs IH]; intros disk; simpl; [done|].
  destruct (mkdir F d disk) as [disk'|e']; [apply IH|].
  intros [= <-]. eauto.
Qed.

Lemma make_dirs_ok dirs (disk : fs F) :
  (∀ p d, ∃ d', mkdir F p d = Ok d') → ∃ disk', make_dirs F dirs disk = Done disk'.
Proof.
  intros Hmk. revert disk.
  induction dirs as [|d dirs IH]; intros disk; simpl; [eauto|].
  destruct (Hmk d disk) as [disk' ->]. apply IH.
Qed.

(** The loop over the indices: the files are planned without looking at the
    file system, and written one after the other. *)
Lemma make_docs_ok (out_dir : Path) (subdirs min_words max_words : Z)
    keywords (idxs : list nat) g (disk : fs F) (log : list event) :
  5 ≤ Z.max min_words max_words →
  ∃ g' (docs : list (Path * list string)),
    make_docs L F idxs (shard_paths L out_dir subdirs) min_words max_words
              keywords (g, disk, log)
    = Done (g', (foldl (λ dl d, write_doc F d.1 (join_words d.2) dl.1 dl.2)
                       (disk, log) docs).1,
                (foldl (λ dl d, write_doc F d.1 (join_words d.2) dl.1 dl.2)
                       (disk, log) docs).2)
    ∧ Forall2 (λ idx d,
                 d.1 = joinpath L
                         (joinpath L out_dir
                            (shard_name
                               (idx mod Z.to_nat (Z.max 1 subdirs))))
                         (doc_name idx)
                 ∧ good_words L min_words max_words keywords d.2)
              idxs docs.
Proof.
  intros Hmax. revert g disk log.
  induction idxs as [|idx idxs IH]; intros g disk log.
  - exists g, []. split; [done|constructor].
  - cbn [make_docs]. rewrite doc_path_ok. cbn [abind].
    destruct (file_words_ok min_words max_words keywords g Hmax)
      as (ws & g1 & -> & Hgood).
    cbn [abind fst snd].
    destruct (write_doc F _ (join_words ws) disk log) as [disk1 log1] eqn:Hw.
    destruct (IH g1 disk1 log1) as (g' & docs & Hrun & Hdocs).
    exists g', ((joinpath L
                   (joinpath L out_dir
                      (shard_name (idx mod Z.to_nat (Z.max 1 subdirs))))
                   (doc_name idx), ws) :: docs).
    split; [|by constructor].
    rewrite Hrun. cbn [foldl fst snd]. by rewrite Hw.
Qed.

Lemma write_all_log (docs : list (Path * list string)) (disk : fs F)
    (log : list event) :
  ∃ warns,
    (foldl (λ dl d, write_doc F d.1 (join_words d.2) dl.1 dl.2)
           (disk, log) docs).2 = log ++ warns
    ∧ Forall (λ ev, ∃ p e, ev = Warn p e) warns
    ∧ (length warns ≤ length docs)%nat.
Proof.
  revert disk log. induction docs as [|d docs IH]; intros disk log.
  - exists []. rewrite app_nil_r. by split_and!.
  - cbn [foldl]. unfold write_doc at 2. cbn [fst snd].
    destruct (write_text F d.1 (join_words d.2) disk) as [[e|] disk1].
    + destruct (IH disk1 (log ++ [Warn d.1 e])) as (warns & -> & Hall & Hlen).
      exists (Warn d.1 e :: warns). split_and!.
      * by rewrite <- app_assoc.
      * constructor; eauto.
      * simpl. lia.
    + destruct (IH disk1 log) as (warns & -> & Hall & Hlen).
      exists warns. split_and!; [done|done|simpl; lia].
Qed.

(** [make_files] fails only when a [mkdir] raises, or with [ValueError] of
    [randint] when both word bounds are below five. *)
Lemma make_files_fail_cases (out_dir : Path)
    (total_files subdirs min_words max_words : Z) keywords
    (seed : option Z) (st : gen_state L F) e :
  make_files L F out_dir total_files subdirs min_words max_words keywords
             seed st = Fail e →
  (∃ e', e = FsError e')
  ∨ (e = ValueError ∧ 0 < total_files ∧ Z.max min_words max_words < 5).
Proof.
  destruct st as [[g disk] log]. unfold make_files.
  destruct (make_dirs F [out_dir] disk) as [disk1|e1] eqn:Hd1;
    [|intros [= <-]; left; by eapply make_dirs_fail].
  cbn [abind].
  destruct (make_dirs F (shard_paths L out_dir subdirs) disk1)
    as [disk2|e2] eqn:Hd2;
    [|intros [= <-]; left; by eapply make_dirs_fail].
  cbn [abind].
  destruct (decide (5 ≤ Z.max min_words max_words)) as [Hmax|Hmax].
  - destruct (make_docs_ok out_dir subdirs min_words max_words keywords
                (seq 0 (Z.to_nat total_files))
                (match seed with Some s => seed_rng L s | None => g end)
                disk2 log Hmax) as (g' & docs & -> & _).
    done.
  - destruct (Z.to_nat total_files) as [|n] eqn:Hn; [done|].
    cbn [seq make_docs]. rewrite doc_path_ok. cbn [abind].
    rewrite file_words_fail by lia. cbn [abind].
    intros [= <-]. right. split_and!; [done|lia|lia].
Qed.

Lemma make_files_done (out_dir : Path)
    (total_files subdirs min_words max_words : Z) keywords
    (seed : option Z) g (disk : fs F) (log : list event) :
  (∀ p d, ∃ d', mkdir F p d = Ok d') →
  5 ≤ Z.max min_words max_words →
  ∃ g' disk' warns,
    make_files L F out_dir total_files subdirs min_words max_words keywords
               seed (g, disk, log) = Done (g', disk', log ++ warns)
    ∧ Forall (λ ev, ∃ p e, ev = Warn p e) warns
    ∧ Z.of_nat (length warns) ≤ Z.max 0 total_files.
Proof.
  intros Hmk Hmax. unfold make_files.
  destruct (make_dirs_ok [out_dir] disk Hmk) as [disk1 ->]. cbn [abind].
  destruct (make_dirs_ok (shard_paths L out_dir subdirs) disk1 Hmk)
    as [disk2 ->].
  cbn [abind].
  destruct (make_docs_ok out_dir subdirs min_words max_words keywords
              (seq 0 (Z.to_nat total_files))
              (match seed with Some s => seed_rng L s | None => g end)
              disk2 log Hmax) as (g' & docs & -> & Hdocs).
  destruct (write_all_log docs disk2 log) as (warns & -> & Hall & Hlen).
  apply Forall2_length in Hdocs. rewrite length_seq in Hdocs.
  eexists _, _, warns. split_and!; [done|done|lia].
Qed.

End AnyFiles.

Lemma write_all_recording (docs : list (Path * list string))
    (disk : fs recording) (log : list event) :
  foldl (λ dl d, write_doc recording d.1 (join_words d.2) dl.1 dl.2)
        (disk, log) docs
  = (disk ++ ((λ d, (d.1, join_words d.2)) <$> docs), log).
Proof.
  revert disk. induction docs as [|d docs IH]; intros disk.
  - by rewrite app_nil_r.
  - cbn [foldl fmap list_fmap]. unfold write_doc at 2.
    cbn [write_text recording fst snd]. rewrite IH.
    by rewrite <- app_assoc.
Qed.

(** On the recording file system the files written are the planned ones. *)
Lemma make_files_recording (out_dir : Path)
    (total_files subdirs min_words max_words : Z) keywords
    (seed : option Z) g (disk : fs recording) (log : list event) :
  5 ≤ Z.max min_words max_words →
  ∃ g' (docs : list (Path * list string)),
    make_files L recording out_dir total_files subdirs min_words max_words
               keywords seed (g, disk, log)
    = Done (g', disk ++ ((λ d, (d.1, join_words d.2)) <$> docs), log)
    ∧ Forall2 (λ idx d,
                 d.1 = joinpath L
                         (joinpath L out_dir
                            (shard_name
                               (idx mod Z.to_nat (Z.max 1 subdirs))))
                         (doc_name idx)
                 ∧ good_words L min_words max_words keywords d.2)
              (seq 0 (Z.to_nat total_files)) docs.
Proof.
  intros Hmax. unfold make_files. cbn [make_dirs mkdir recording abind].
  assert (∀ dirs (d : fs recording), make_dirs recording dirs d = Done d)
    as Hdirs.
  { induction dirs as [|x dirs IH]; intros d; [done|]. simpl. apply IH. }
  rewrite Hdirs. cbn [abind].
  destruct (make_docs_ok recording out_dir subdirs min_words max_words
              keywords (seq 0 (Z.to_nat total_files))
              (match seed with Some s => seed_rng L s | None => g end)
              disk log Hmax) as (g' & docs & -> & Hdocs).
  rewrite write_all_recording. cbn [fst snd]. eauto.
Qed.

(** X16. On a file system where every operation succeeds, [make_files]
    (with a word bound of at least five) writes exactly [total_files] files
    and prints nothing: the file number [idx] goes to
    [out_dir/shard_(idx mod m)/doc_idx.txt] for [m = max(1, subdirs)] shards,
    and its text is the words of the file joined by single spaces, between
    [max(5, min_words)] and three times [max(min_words, max_words)] words
    that are vocabulary words or keywords in lower, upper or title case. *)
Theorem make_files_writes (out_dir : Path)
    (total_files subdirs min_words max_words : Z) keywords
    (seed : option Z) g (disk : fs recording) (log : list event) :
  5 ≤ Z.max min_words max_words →
  ∃ g' written,
    make_files L recording out_dir total_files subdirs min_words max_words
               keywords seed (g, disk, log)
    = Done (g', disk ++ written, log)
    ∧ length written = Z.to_nat total_files
    ∧ ∀ (idx : nat) p text,
        written !! idx = Some (p, text) →
        p = joinpath L
              (joinpath L out_dir
                 (shard_name (idx mod Z.to_nat (Z.max 1 subdirs))))
              (doc_name idx)
        ∧ ∃ ws, text = join_words ws
                ∧ good_words L min_words max_words keywords ws.
Proof.
  intros Hmax.
  destruct (make_files_recording out_dir total_files subdirs min_words
              max_words keywords seed g disk log Hmax)
    as (g' & docs & Hrun & Hdocs).
  exists g', ((λ d, (d.1, join_words d.2)) <$> docs). split_and!.
  - done.
  - rewrite length_fmap. apply Forall2_length in Hdocs.
    by rewrite length_seq in Hdocs.
  - intros idx p text Hidx.
    apply list_lookup_fmap_Some in Hidx as ([p' ws] & [= -> ->] & Hd).
    destruct (Forall2_lookup_r _ _ _ _ _ Hdocs Hd) as (i & Hi & Hp & Hgood).
    apply lookup_seq in Hi as [-> _]. simpl in *. split; [done|eauto].
Qed.

(** X17. A file that cannot be written never stops [make_files]: when the
    directories can be made and a word bound is at least five it runs to the
    end whatever [write_text] does, printing only warnings, at most one per
    file.  It fails only with the exception of a [mkdir], or with the
    [ValueError] of [randint] when there is a file to make and both word
    bounds are below five. *)
Theorem make_files_failures (F : Files) (out_dir : Path)
    (total_files subdirs min_words max_words : Z) keywords
    (seed : option Z) g (disk : fs F) (log : list event) :
  (∀ e,
     make_files L F out_dir total_files subdirs min_words max_words keywords
                seed (g, disk, log) = Fail e →
     (∃ e', e = FsError e')
     ∨ (e = ValueError ∧ 0 < total_files ∧ Z.max min_words max_words < 5))
  ∧ ((∀ p d, ∃ d', mkdir F p d = Ok d') →
     (5 ≤ Z.max min_words max_words →
      ∃ g' disk' warns,
        make_files L F out_dir total_files subdirs min_words max_words
                   keywords seed (g, disk, log)
        = Done (g', disk', log ++ warns)
        ∧ Forall (λ ev, ∃ p e, ev = Warn p e) warns
        ∧ Z.of_nat (length warns) ≤ Z.max 0 total_files)
     ∧ (0 < total_files → Z.max min_words max_words < 5 →
        make_files L F out_dir total_files subdirs min_words max_words
                   keywords seed (g, disk, log) = Fail ValueError)).
Proof.
  split; [intros e; apply make_files_fail_cases|].
  intros Hmk. split; [by apply make_files_done|].
  intros Htotal Hmax. unfold make_files.
  destruct (make_dirs_ok F [out_dir] disk Hmk) as [disk1 ->]. cbn [abind].
  destruct (make_dirs_ok F (shard_paths L out_dir subdirs) disk1 Hmk)
    as [disk2 ->].
  cbn [abind].
  destruct (Z.to_nat total_files) as [|n] eqn:Hn; [lia|].
  cbn [seq make_docs]. rewrite doc_path_ok. cbn [abind].
  by rewrite file_words_fail by lia.
Qed.

(** X18. [main] clamps its arguments before it calls [make_files], so the
    [ValueError] of [randint] cannot occur: a run fails only with the
    exception of a [mkdir].  On a file system where every operation succeeds
    it writes [max(1, files)] files, at least one, and ends by reporting the
    number of files that was asked for, not the number written. *)
Theorem main_clamps (F : Files) (a : GenArgs) (st : gen_state L F)
    g (disk : fs recording) (log : list event) :
  (∀ e, main L F a st = Fail e → ∃ e', e = FsError e')
  ∧ ∃ g' written,
      main L recording a (g, disk, log)
      = Done (g', disk ++ written,
              log ++ [Report (a_files a) (a_out a) (a_subdirs a)])
      ∧ Z.of_nat (length written) = Z.max 1 (a_files a).
Proof.
  split.
  - intros e. unfold main.
    destruct (make_files L F _ _ _ _ _ _ _ st) as [[[g1 d1] l1]|e1] eqn:Hmf;
      [done|].
    cbn [abind]. intros [= <-].
    apply make_files_fail_cases in Hmf as [?|(_ & _ & Hmax)]; [done|lia].
  - unfold main.
    destruct (make_files_recording (mkpath L (a_out a)) (Z.max 1 (a_files a))
                (Z.max 1 (a_subdirs a)) (Z.max 5 (a_min_words a))
                (Z.max 5 (a_max_words a)) (a_keywords a) (Some (a_seed a))
                g disk log ltac:(lia)) as (g' & docs & -> & Hdocs).
    cbn [abind]. eexists g', _. split; [done|].
    rewrite length_fmap. apply Forall2_length in Hdocs.
    rewrite length_seq in Hdocs. lia.
Qed.

End GeneratorFacts.

Lemma make_files_writes_witness :
  5 ≤ Z.max 0 6
  ∧ ∃ g' written,
      Generator.make_files Generator.demo_lib Generator.recording "data" 3 2
        0 6 ["Rose"] (Some 1) (0%nat, [], [])
      = Generator.Done (g', [] ++ written, [])
      ∧ length written = Z.to_nat 3
      ∧ ∀ (idx : nat) p text,
          written !! idx = Some (p, text) →
          p = Generator.joinpath Generator.demo_lib
                (Generator.joinpath Generator.demo_lib "data"
                   (Generator.shard_name (idx mod Z.to_nat (Z.max 1 2))))
                (Generator.doc_name idx)
          ∧ ∃ ws, text = Generator.join_words ws
                  ∧ Generator.good_words Generator.demo_lib 0 6 ["Rose"] ws.
Proof.
  assert (5 ≤ Z.max 0 6) as Hmax by (vm_compute; discriminate).
  split; [exact Hmax|].
  exact (make_files_writes Generator.demo_lib "data" 3 2 0 6 ["Rose"]
           (Some 1) 0%nat [] [] Hmax).
Defined.

Example generator_demo :
  Generator.main Generator.demo_lib Generator.recording
    {| Generator.a_out := "data"; Generator.a_files := 0;
       Generator.a_subdirs := 2; Generator.a_min_words := 0;
       Generator.a_max_words := 6; Generator.a_keywords := ["Rose"];
       Generator.a_seed := 1 |} (0%nat, [], [])
  = Generator.Done
      (16%nat,
       [("data/shard_00/doc_00000.txt", "небо ріка сонце вітер ліс камінь")],
       [Generator.Report 0 "data" 2]).
Proof. vm_compute. reflexivity. Qed.
